(** * Galois field arithmetic over GF(2^m): a shallow embedding of [main.py]

    The Python class [GaloisField] is embedded as a record together with
    its methods.  Python integers are unbounded, so they are [Z] and the
    bit operators are those of [Z] (two's complement on negative numbers,
    as in Python).  Python lists are [list Z]; indexing follows Python:
    negative indices count from the end and an index outside
    [-len, len) raises [IndexError].  Methods run in a small monad that
    carries the raised exception, possible divergence of the [while]
    loop, and the trace of table accesses. *)

From Stdlib Require Import ZArith Lia List Bool Ascii.
From stdpp Require Import base numbers list strings.

Local Open Scope Z_scope.

(** ** Python values, exceptions and the execution monad *)

Inductive exn : Type :=
| ValueError (msg : string)
| IndexError
| ZeroDivisionError.

Inductive outcome (A : Type) : Type :=
| Ok (v : A)
| Raise (e : exn)
| Diverge.
Arguments Ok {A} v.
Arguments Raise {A} e.
Arguments Diverge {A}.

Inductive table : Type := ExpT | LogT.

Inductive event : Type :=
| Read (t : table) (i : Z)
| Write (t : table) (i : Z) (v : Z).

Definition Py (A : Type) : Type := (list event * outcome A)%type.

Definition ret {A} (v : A) : Py A := ([], Ok v).
Definition raise {A} (e : exn) : Py A := ([], Raise e).
Definition emit (ev : event) : Py unit := ([ev], Ok tt).

Definition bind {A B} (c : Py A) (k : A -> Py B) : Py B :=
  match c with
  | (tr, Ok v) => let (tr', r) := k v in (tr ++ tr', r)
  | (tr, Raise e) => (tr, Raise e)
  | (tr, Diverge) => (tr, Diverge)
  end.

Notation "x <- c ;; k" := (bind c (fun x => k))
  (at level 100, c at next level, right associativity).
Notation "c ;;; k" := (bind c (fun _ => k))
  (at level 100, right associativity).

Definition trace_of {A} (c : Py A) : list event := fst c.
Definition result_of {A} (c : Py A) : outcome A := snd c.

(** A partial computation that returned nothing within its loop never
    returns. *)
Definition lift_loop {A} (o : option A) : Py A :=
  match o with
  | Some v => ret v
  | None => ([], Diverge)
  end.

(** ** Python lists *)

(** Position denoted by a Python index in a list of length [len]. *)
Definition py_index (len : nat) (i : Z) : option nat :=
  if (0 <=? i) && (i <? Z.of_nat len) then Some (Z.to_nat i)
  else if (- Z.of_nat len <=? i) && (i <? 0) then Some (Z.to_nat (Z.of_nat len + i))
  else None.

(** [l[i]] *)
Definition getitem (t : table) (l : list Z) (i : Z) : Py Z :=
  emit (Read t i) ;;;
  match py_index (length l) i with
  | Some n =>
      match l !! n with
      | Some v => ret v
      | None => raise IndexError
      end
  | None => raise IndexError
  end.

(** [l[i] = v] *)
Definition setitem (t : table) (l : list Z) (i : Z) (v : Z) : Py (list Z) :=
  emit (Write t i v) ;;;
  match py_index (length l) i with
  | Some n => ret (<[n := v]> l)
  | None => raise IndexError
  end.

(** [a % n] *)
Definition py_mod (a n : Z) : Py Z :=
  if n =? 0 then raise ZeroDivisionError else ret (a mod n).

(** [a << n] *)
Definition py_shiftl (a n : Z) : Py Z :=
  if n <? 0 then raise (ValueError "negative shift count") else ret (Z.shiftl a n).

(** [range(n)] *)
Definition range (n : Z) : list Z := map Z.of_nat (seq 0 (Z.to_nat n)).

(** [for i in l: s = body i s] *)
Fixpoint for_loop {S} (l : list Z) (body : Z -> S -> Py S) (s : S) : Py S :=
  match l with
  | [] => ret s
  | i :: l' => s' <- body i s ;; for_loop l' body s'
  end.

(** ** The class [GaloisField] *)

Record GaloisField : Type := {
  m : Z;
  primitive_poly : Z;
  field_size : Z;
  mask : Z;
  exp_table : list Z;
  log_table : list Z
}.

Definition set_exp_table (self : GaloisField) (t : list Z) : GaloisField :=
  {| m := m self; primitive_poly := primitive_poly self;
     field_size := field_size self; mask := mask self;
     exp_table := t; log_table := log_table self |}.

Definition set_log_table (self : GaloisField) (t : list Z) : GaloisField :=
  {| m := m self; primitive_poly := primitive_poly self;
     field_size := field_size self; mask := mask self;
     exp_table := exp_table self; log_table := t |}.

(** One pass of the [while b:] loop of [_multiply_without_tables]: the
    loop state is [(a, b, result)]. *)
Definition mul_step (self : GaloisField) (st : Z * Z * Z) : Z * Z * Z :=
  let '(a, b, result) := st in
  let result := if Z.land b 1 =? 0 then result else Z.lxor result a in
  let a := Z.shiftl a 1 in
  let a := if Z.land a (field_size self) =? 0 then a else Z.lxor a (primitive_poly self) in
  let b := Z.shiftr b 1 in
  (a, b, result).

(** The [while] loop, run for at most [fuel] tests of its condition. *)
Fixpoint mul_loop (fuel : nat) (self : GaloisField) (st : Z * Z * Z) : option Z :=
  match fuel with
  | O => None
  | S fuel' =>
      let '(a, b, result) := st in
      if b =? 0 then Some result
      else mul_loop fuel' self (mul_step self st)
  end.

(** Number of loop tests that a non-negative [b] needs: one per binary
    digit and the final failing test. *)
Definition mul_fuel (b : Z) : nat := S (S (Z.to_nat (Z.log2 b))).

Definition _multiply_without_tables (self : GaloisField) (a b : Z) : option Z :=
  mul_loop (mul_fuel b) self (a, b, 0).

Definition init_body (i : Z) (st : GaloisField * Z) : Py (GaloisField * Z) :=
  let '(self, x) := st in
  e <- setitem ExpT (exp_table self) i x ;;
  let self := set_exp_table self e in
  e <- setitem ExpT (exp_table self) (i + field_size self - 1) x ;;
  let self := set_exp_table self e in
  l <- setitem LogT (log_table self) x i ;;
  let self := set_log_table self l in
  x <- lift_loop (_multiply_without_tables self x 2) ;;
  ret (self, x).

Definition __init__ (primitive_poly m : Z) : Py GaloisField :=
  field_size <- py_shiftl 1 m ;;
  let mask := field_size - 1 in
  let exp_table := replicate (Z.to_nat (2 * field_size)) 0 in
  let log_table := replicate (Z.to_nat field_size) 0 in
  let self := {| m := m; primitive_poly := primitive_poly;
                 field_size := field_size; mask := mask;
                 exp_table := exp_table; log_table := log_table |} in
  let x := 1 in
  st <- for_loop (range (field_size - 1)) init_body (self, x) ;;
  ret (fst st).

Definition add (self : GaloisField) (a b : Z) : Py Z :=
  ret (Z.lxor a b).

Definition subtract (self : GaloisField) (a b : Z) : Py Z :=
  add self a b.

Definition multiply (self : GaloisField) (a b : Z) : Py Z :=
  if (a =? 0) || (b =? 0) then ret 0
  else
    la <- getitem LogT (log_table self) a ;;
    lb <- getitem LogT (log_table self) b ;;
    k <- py_mod (la + lb) (field_size self - 1) ;;
    getitem ExpT (exp_table self) k.

Definition divide (self : GaloisField) (a b : Z) : Py Z :=
  if b =? 0 then raise (ValueError "Division by zero")
  else if a =? 0 then ret 0
  else
    la <- getitem LogT (log_table self) a ;;
    lb <- getitem LogT (log_table self) b ;;
    k <- py_mod (la - lb) (field_size self - 1) ;;
    getitem ExpT (exp_table self) k.

Definition inverse (self : GaloisField) (a : Z) : Py Z :=
  if a =? 0 then raise (ValueError "Zero has no multiplicative inverse")
  else
    la <- getitem LogT (log_table self) a ;;
    k <- py_mod (- la) (field_size self - 1) ;;
    getitem ExpT (exp_table self) k.

(** The field of [example_usage]: [GaloisField(primitive_poly=0b10011, m=4)]. *)
Definition gf16 : Py GaloisField := __init__ 19 4.

(** The record it builds, with the tables written out. *)
Definition gf16_field : GaloisField :=
  {| m := 4; primitive_poly := 19; field_size := 16; mask := 15;
     exp_table := [1; 2; 4; 8; 3; 6; 12; 11; 5; 10; 7; 14; 15; 13; 9;
                   1; 2; 4; 8; 3; 6; 12; 11; 5; 10; 7; 14; 15; 13; 9; 0; 0];
     log_table := [0; 0; 1; 4; 2; 8; 5; 10; 3; 14; 9; 7; 6; 13; 11; 12] |}.

(** ** Polynomials over GF(2) modulo the field polynomial

    A polynomial is the integer whose bit [k] is the coefficient of
    [x^k].  [xtime] multiplies by [x] and reduces modulo [p] when the
    degree reaches [mm]; [xpow k] is [x^k] modulo [p]. *)

Definition xtime (fs p a : Z) : Z :=
  let a := Z.shiftl a 1 in
  if Z.land a fs =? 0 then a else Z.lxor a p.

Definition xpow (fs p : Z) (k : nat) : Z := Nat.iter k (xtime fs p) 1.

(** [p] is a primitive polynomial of degree [mm]: it has degree [mm] and
    the class of [x] modulo [p] has multiplicative order exactly
    [2^mm - 1], so its powers run through a cycle of that length. *)
Definition is_primitive (p mm : Z) : bool :=
  (0 <? mm) && (2 ^ mm <=? p) && (p <? 2 ^ (mm + 1)) &&
  (xpow (2 ^ mm) p (Z.to_nat (2 ^ mm - 1)) =? 1) &&
  forallb (fun k => negb (xpow (2 ^ mm) p k =? 1))
          (seq 1 (Z.to_nat (2 ^ mm - 1) - 1)).

(** Carry-less product of [a] by the low [n] bits of [b], reduced on the
    fly: what the [while] loop accumulates in [n] passes. *)
Fixpoint clmul (fs p : Z) (n : nat) (a b : Z) : Z :=
  match n with
  | O => 0
  | S n' =>
      Z.lxor (if Z.land b 1 =? 0 then 0 else a)
             (clmul fs p n' (xtime fs p a) (Z.shiftr b 1))
  end.

(** ** The demonstration [example_usage] *)

(** Binary digits of a positive number, most significant first. *)
Fixpoint pos_digits (p : positive) : string :=
  match p with
  | xH => "1"
  | xO q => String.append (pos_digits q) "0"
  | xI q => String.append (pos_digits q) "1"
  end.

(** [bin(n)] *)
Definition bin (n : Z) : string :=
  match n with
  | Z0 => "0b0"
  | Zpos p => String.append "0b" (pos_digits p)
  | Zneg p => String.append "-0b" (pos_digits p)
  end.

(** [s[k:]] for [k >= 0] *)
Fixpoint slice_from (k : nat) (s : string) : string :=
  match k, s with
  | O, _ => s
  | S k', String _ rest => slice_from k' rest
  | S _, EmptyString => EmptyString
  end.

Fixpoint zeros (n : nat) : string :=
  match n with
  | O => EmptyString
  | S n' => String "0"%char (zeros n')
  end.

Definition is_sign (c : Ascii.ascii) : bool :=
  Ascii.eqb c "+"%char || Ascii.eqb c "-"%char.

(** [s.zfill(width)]: zeros are put on the left, after a leading sign. *)
Definition zfill (width : nat) (s : string) : string :=
  if (width <=? String.length s)%nat then s
  else
    let fill := zeros (width - String.length s) in
    match s with
    | String c rest =>
        if is_sign c then String c (String.append fill rest)
        else String.append fill s
    | EmptyString => fill
    end.

(** [bin(x)[2:].zfill(4)], the text printed for a value. *)
Definition show4 (x : Z) : string := zfill 4 (slice_from 2 (bin x)).

(** [example_usage()].  The value is the list of the lines printed, in
    order, when the function returns. *)
Definition example_usage : Py (list string) :=
  gf <- __init__ 19 4 ;;
  let a := 11 in
  let b := 13 in
  let out := ["Field: GF(2^4)"%string] in
  let out := out ++ [String.append "a = " (String.append (show4 a)
                       (String.append ", b = " (show4 b)))] in
  s <- add gf a b ;;
  let out := out ++ [String.append "a + b = " (show4 s)] in
  s <- multiply gf a b ;;
  let out := out ++ [String.append "a * b = " (show4 s)] in
  s <- divide gf a b ;;
  let out := out ++ [String.append "a / b = " (show4 s)] in
  s <- inverse gf a ;;
  let out := out ++ [String.append "inverse(a) = " (show4 s)] in
  ret out.

(** Value of a string of binary digits, as [int(s, 2)] reads it; [None]
    when a character is not a binary digit. *)
Fixpoint parse_bits_from (acc : Z) (s : string) : option Z :=
  match s with
  | EmptyString => Some acc
  | String c rest =>
      if Ascii.eqb c "0"%char then parse_bits_from (2 * acc) rest
      else if Ascii.eqb c "1"%char then parse_bits_from (2 * acc + 1) rest
      else None
  end.

Definition parse_bits (s : string) : option Z := parse_bits_from 0 s.

(** ** Properties of traces and exceptions *)

(** Table accesses that the queries may make: the log table at a nonzero
    element, the exponent table at an exponent of the first period. *)
Definition access_ok (gf : GaloisField) (ev : event) : Prop :=
  match ev with
  | Read LogT i => 0 < i < field_size gf
  | Read ExpT i => 0 <= i < field_size gf - 1
  | Write _ _ _ => False
  end.

Definition is_read (ev : event) : bool :=
  match ev with
  | Read _ _ => true
  | Write _ _ _ => false
  end.

(** Pairs [(x, i)] of the assignments [log_table[x] = i] in a trace. *)
Definition log_writes (tr : list event) : list (Z * Z) :=
  flat_map (fun ev => match ev with
                      | Write LogT x i => [(x, i)]
                      | _ => []
                      end) tr.

(** The exceptions of a table lookup. *)
Definition lookup_error (e : exn) : Prop := e = IndexError \/ e = ZeroDivisionError.

(** ** Invariants of the constructor *)

(** The object as [__init__] has it when the loop starts. *)
Definition self0 (p mm : Z) : GaloisField :=
  {| m := mm; primitive_poly := p; field_size := 2 ^ mm; mask := 2 ^ mm - 1;
     exp_table := replicate (Z.to_nat (2 * 2 ^ mm)) 0;
     log_table := replicate (Z.to_nat (2 ^ mm)) 0 |}.

(** What every pass keeps, whatever the arguments of the constructor:
    the scalar attributes, the lengths of the tables, and the second
    copy of each exponent entry written so far. *)
Definition basic_inv (p mm : Z) (k : nat) (st : GaloisField * Z) : Prop :=
  let self := fst st in
  m self = mm /\ primitive_poly self = p /\
  field_size self = 2 ^ mm /\ mask self = 2 ^ mm - 1 /\
  length (exp_table self) = Z.to_nat (2 * 2 ^ mm) /\
  length (log_table self) = Z.to_nat (2 ^ mm) /\
  forall j, (j < k)%nat ->
    exists v, exp_table self !! j = Some v /\
              exp_table self !! (j + Z.to_nat (2 ^ mm - 1))%nat = Some v.

(** With a primitive polynomial, pass [k] starts with [x = x^k], the
    exponent table lists the powers below [k] and the log table inverts
    it. *)
Definition prim_inv (p mm : Z) (k : nat) (st : GaloisField * Z) : Prop :=
  basic_inv p mm k st /\ snd st = xpow (2 ^ mm) p k /\
  (forall j, (j < k)%nat -> exp_table (fst st) !! j = Some (xpow (2 ^ mm) p j)) /\
  (forall j, (j < k)%nat ->
     log_table (fst st) !! Z.to_nat (xpow (2 ^ mm) p j) = Some (Z.of_nat j)).

(** The exponent table lists the powers of [x] and the log table inverts
    it. *)
Definition tables_ok (p mm : Z) (gf : GaloisField) : Prop :=
  primitive_poly gf = p /\ field_size gf = 2 ^ mm /\
  length (exp_table gf) = Z.to_nat (2 * 2 ^ mm) /\
  length (log_table gf) = Z.to_nat (2 ^ mm) /\
  (forall j, (j < Z.to_nat (2 ^ mm - 1))%nat ->
     exp_table gf !! j = Some (xpow (2 ^ mm) p j)) /\
  (forall j, (j < Z.to_nat (2 ^ mm - 1))%nat ->
     log_table gf !! Z.to_nat (xpow (2 ^ mm) p j) = Some (Z.of_nat j)).

(** * Proofs *)

(** ** The execution monad *)

Section Monad.
Context {A B : Type}.

Lemma result_of_bind (c : Py A) (k : A -> Py B) :
  result_of (bind c k) =
  match result_of c with
  | Ok v => result_of (k v)
  | Raise e => Raise e
  | Diverge => Diverge
  end.
Proof.
  destruct c as [tr [v | e |]]; simpl; try reflexivity.
  destruct (k v); reflexivity.
Qed.

Lemma trace_of_bind (c : Py A) (k : A -> Py B) :
  trace_of (bind c k) =
  match result_of c with
  | Ok v => trace_of c ++ trace_of (k v)
  | _ => trace_of c
  end.
Proof.
  destruct c as [tr [v | e |]]; simpl; try reflexivity.
  destruct (k v); reflexivity.
Qed.

Lemma bind_ok_inv (c : Py A) (k : A -> Py B) (w : B) :
  result_of (bind c k) = Ok w ->
  exists v, result_of c = Ok v /\ result_of (k v) = Ok w.
Proof.
  rewrite result_of_bind. destruct (result_of c) as [v | e |]; try discriminate.
  intros H. exists v. split; [reflexivity | exact H].
Qed.
End Monad.

(** ** Bits *)

Section Bits.

Lemma land_pow2_eqb (a n : Z) :
  0 <= n -> (Z.land a (2 ^ n) =? 0) = negb (Z.testbit a n).
Proof.
  intros Hn. destruct (Z.testbit a n) eqn:Hb; simpl.
  - apply Z.eqb_neq. intros H0.
    assert (Ht : Z.testbit (Z.land a (2 ^ n)) n = true).
    { rewrite Z.land_spec, Hb, Z.pow2_bits_true by lia. reflexivity. }
    rewrite H0, Z.bits_0 in Ht. discriminate.
  - apply Z.eqb_eq. apply Z.bits_inj'. intros k Hk.
    rewrite Z.land_spec, Z.bits_0, Z.pow2_bits_eqb by lia.
    destruct (Z.eqb_spec n k) as [-> | _].
    + rewrite Hb. reflexivity.
    + apply andb_false_r.
Qed.

Lemma testbit_top (a n : Z) :
  0 <= n -> 0 <= a < 2 ^ (n + 1) -> Z.testbit a n = (2 ^ n <=? a).
Proof.
  intros Hn Ha.
  rewrite Z.testbit_eqb, <- Z.shiftr_div_pow2 by lia.
  rewrite Z.shiftr_div_pow2 by lia.
  rewrite Z.pow_add_r in Ha by lia. change (2 ^ 1) with 2 in Ha.
  assert (Hp : 0 < 2 ^ n) by (apply Z.pow_pos_nonneg; lia).
  destruct (Z.leb_spec (2 ^ n) a) as [Hle | Hlt].
  - assert (a / 2 ^ n = 1) as ->; [| reflexivity].
    symmetry. apply (Z.div_unique a (2 ^ n) 1 (a - 2 ^ n)); lia.
  - rewrite Z.div_small by lia. reflexivity.
Qed.

Lemma lxor_bound (a b n : Z) :
  0 <= n -> 0 <= a < 2 ^ n -> 0 <= b < 2 ^ n -> 0 <= Z.lxor a b < 2 ^ n.
Proof.
  intros Hn Ha Hb.
  assert (H0 : 0 <= Z.lxor a b) by (apply Z.lxor_nonneg; lia).
  split; [exact H0 |].
  destruct (Z.eq_dec (Z.lxor a b) 0) as [-> | Hne].
  - apply Z.pow_pos_nonneg; lia.
  - assert (Hn0 : 0 < n).
    { destruct (Z.eq_dec n 0) as [-> | ?]; [| lia].
      change (2 ^ 0) with 1 in *.
      assert (a = 0) as -> by lia. assert (b = 0) as -> by lia.
      contradiction. }
    apply Z.log2_lt_pow2; [lia |].
    eapply Z.le_lt_trans; [apply Z.log2_lxor; lia |].
    apply Z.max_lub_lt.
    + destruct (Z.eq_dec a 0) as [-> | ?]; [simpl; lia |].
      apply Z.log2_lt_pow2; lia.
    + destruct (Z.eq_dec b 0) as [-> | ?]; [simpl; lia |].
      apply Z.log2_lt_pow2; lia.
Qed.

End Bits.

(** ** Multiplication by [x] and the carry-less product *)

Section Xtime.
Variables (mm fs p : Z).
Hypothesis Hmm : 0 <= mm.
Hypothesis Hfs : fs = 2 ^ mm.

Lemma xtime_testbit (a : Z) :
  xtime fs p a =
  if Z.testbit (Z.shiftl a 1) mm then Z.lxor (Z.shiftl a 1) p else Z.shiftl a 1.
Proof.
  unfold xtime. rewrite Hfs, land_pow2_eqb by exact Hmm.
  destruct (Z.testbit (Z.shiftl a 1) mm); reflexivity.
Qed.

Lemma xtime_0 : xtime fs p 0 = 0.
Proof. unfold xtime. rewrite Z.shiftl_0_l. reflexivity. Qed.

Lemma xtime_lxor (a b : Z) :
  xtime fs p (Z.lxor a b) = Z.lxor (xtime fs p a) (xtime fs p b).
Proof.
  rewrite !xtime_testbit, Z.shiftl_lxor, Z.lxor_spec.
  set (a' := Z.shiftl a 1). set (b' := Z.shiftl b 1).
  destruct (Z.testbit a' mm), (Z.testbit b' mm); simpl.
  - rewrite (Z.lxor_comm b' p), Z.lxor_assoc, <- (Z.lxor_assoc p p b').
    rewrite Z.lxor_nilpotent, Z.lxor_0_l. reflexivity.
  - rewrite !Z.lxor_assoc. f_equal. apply Z.lxor_comm.
  - rewrite Z.lxor_assoc. reflexivity.
  - reflexivity.
Qed.

Lemma iter_xtime_0 (k : nat) : Nat.iter k (xtime fs p) 0 = 0.
Proof. induction k as [| k IH]; simpl; [reflexivity |]. rewrite IH. apply xtime_0. Qed.

Lemma clmul_0_l (n : nat) (b : Z) : clmul fs p n 0 b = 0.
Proof.
  revert b. induction n as [| n IH]; intros b; simpl; [reflexivity |].
  rewrite xtime_0, IH. destruct (Z.land b 1 =? 0); reflexivity.
Qed.

Lemma clmul_0_r (n : nat) (a : Z) : clmul fs p n a 0 = 0.
Proof.
  revert a. induction n as [| n IH]; intros a; simpl; [reflexivity |].
  rewrite Z.shiftr_0_l, IH. reflexivity.
Qed.

Lemma clmul_xtime (n : nat) (a b : Z) :
  clmul fs p n (xtime fs p a) b = xtime fs p (clmul fs p n a b).
Proof.
  revert a b. induction n as [| n IH]; intros a b; simpl.
  - symmetry. apply xtime_0.
  - rewrite xtime_lxor, IH. f_equal.
    destruct (Z.land b 1 =? 0); [symmetry; apply xtime_0 | reflexivity].
Qed.

Lemma clmul_iter_xtime (k n : nat) (a b : Z) :
  clmul fs p n (Nat.iter k (xtime fs p) a) b =
  Nat.iter k (xtime fs p) (clmul fs p n a b).
Proof.
  induction k as [| k IH]; simpl; [reflexivity |].
  rewrite clmul_xtime, IH. reflexivity.
Qed.

Lemma land_1_eqb (b : Z) : (Z.land b 1 =? 0) = negb (Z.testbit b 0).
Proof. apply (land_pow2_eqb b 0). lia. Qed.

(** Below the degree of [p] nothing is reduced: the product of [x^j]
    by [b] is [b] shifted. *)
Lemma clmul_pow2 (n : nat) (j b : Z) :
  0 <= j -> j + Z.of_nat n <= mm -> 0 <= b < 2 ^ Z.of_nat n ->
  clmul fs p n (2 ^ j) b = Z.shiftl b j.
Proof.
  revert j b. induction n as [| n IH]; intros j b Hj Hjn Hb.
  - simpl in *. assert (b = 0) as -> by lia. rewrite Z.shiftl_0_l. reflexivity.
  - cbn [clmul]. rewrite land_1_eqb.
    assert (Hhalf : 0 <= Z.shiftr b 1 < 2 ^ Z.of_nat n).
    { rewrite Z.shiftr_div_pow2 by lia. change (2 ^ 1) with 2.
      rewrite Nat2Z.inj_succ, Z.pow_succ_r in Hb by lia.
      split; [apply Z.div_pos; lia | apply Z.div_lt_upper_bound; lia]. }
    assert (Hrest : clmul fs p n (xtime fs p (2 ^ j)) (Z.shiftr b 1)
                    = Z.shiftl (Z.shiftr b 1) (j + 1)).
    { destruct n as [| n'].
      - simpl in *. assert (Z.shiftr b 1 = 0) as -> by lia.
        rewrite Z.shiftl_0_l. reflexivity.
      - assert (Hx : xtime fs p (2 ^ j) = 2 ^ (j + 1)).
        { rewrite xtime_testbit, Z.shiftl_mul_pow2 by lia.
          replace (2 ^ j * 2 ^ 1) with (2 ^ (j + 1))
            by (rewrite Z.pow_add_r by lia; reflexivity).
          rewrite Z.pow2_bits_false by lia. reflexivity. }
        rewrite Hx. apply IH; lia. }
    rewrite Hrest. apply Z.bits_inj'. intros k Hk.
    rewrite Z.lxor_spec, !Z.shiftl_spec by lia.
    destruct (Z.lt_trichotomy k j) as [Hlt | [-> | Hgt]].
    + rewrite !(Z.testbit_neg_r _ (k - _)) by lia.
      destruct (Z.testbit b 0); simpl;
        [rewrite Z.pow2_bits_false by lia | rewrite Z.bits_0]; reflexivity.
    + rewrite (Z.testbit_neg_r _ (j - (j + 1))) by lia.
      rewrite Z.sub_diag.
      destruct (Z.testbit b 0); simpl;
        [rewrite Z.pow2_bits_true by lia | rewrite Z.bits_0]; reflexivity.
    + rewrite Z.shiftr_spec by lia.
      replace (k - (j + 1) + 1) with (k - j) by lia.
      destruct (Z.testbit b 0); simpl;
        [rewrite Z.pow2_bits_false by lia | rewrite Z.bits_0]; reflexivity.
Qed.

Lemma clmul_1 (n : nat) (b : Z) :
  Z.of_nat n <= mm -> 0 <= b < 2 ^ Z.of_nat n -> clmul fs p n 1 b = b.
Proof.
  intros Hn Hb. change 1 with (2 ^ 0).
  rewrite clmul_pow2 by lia. apply Z.shiftl_0_r.
Qed.

(** A polynomial of degree below [mm] is its own product by [1], so
    multiplying [x^k] by it applies [xtime] [k] times. *)
Lemma clmul_xpow (k n : nat) (b : Z) :
  Z.of_nat n <= mm -> 0 <= b < 2 ^ Z.of_nat n ->
  clmul fs p n (xpow fs p k) b = Nat.iter k (xtime fs p) b.
Proof.
  intros Hn Hb. unfold xpow. rewrite clmul_iter_xtime, clmul_1 by assumption.
  reflexivity.
Qed.

(** With [p] of degree [mm], [xtime] stays below degree [mm]. *)
Lemma xtime_range (a : Z) :
  2 ^ mm <= p < 2 ^ (mm + 1) -> 0 <= a < 2 ^ mm -> 0 <= xtime fs p a < 2 ^ mm.
Proof.
  intros Hp Ha. rewrite xtime_testbit.
  assert (Ha' : 0 <= Z.shiftl a 1 < 2 ^ (mm + 1)).
  { rewrite Z.shiftl_mul_pow2 by lia. change (2 ^ 1) with 2.
    rewrite Z.pow_add_r by lia. change (2 ^ 1) with 2. lia. }
  destruct (Z.testbit (Z.shiftl a 1) mm) eqn:Hb.
  - assert (Hx : 0 <= Z.lxor (Z.shiftl a 1) p < 2 ^ (mm + 1))
      by (apply lxor_bound; lia).
    assert (Ht : Z.testbit (Z.lxor (Z.shiftl a 1) p) mm = false).
    { rewrite Z.lxor_spec, Hb, (testbit_top p mm) by lia.
      destruct (Z.leb_spec (2 ^ mm) p); [reflexivity | lia]. }
    rewrite testbit_top in Ht by lia.
    destruct (Z.leb_spec (2 ^ mm) (Z.lxor (Z.shiftl a 1) p)); [discriminate | lia].
  - rewrite testbit_top in Hb by lia.
    destruct (Z.leb_spec (2 ^ mm) (Z.shiftl a 1)); [discriminate | lia].
Qed.

End Xtime.

(** ** The [while] loop of [_multiply_without_tables] *)

Section Loop.
Variable self : GaloisField.
Let fs := field_size self.
Let p := primitive_poly self.

Lemma mul_step_eq (a b r : Z) :
  mul_step self (a, b, r) =
  (xtime fs p a, Z.shiftr b 1, if Z.land b 1 =? 0 then r else Z.lxor r a).
Proof. reflexivity. Qed.

Lemma shiftr_1_bound (b : Z) (n : nat) :
  0 <= b < 2 ^ Z.of_nat (S n) -> 0 <= Z.shiftr b 1 < 2 ^ Z.of_nat n.
Proof.
  intros Hb. rewrite Z.shiftr_div_pow2 by lia. change (2 ^ 1) with 2.
  rewrite Nat2Z.inj_succ, Z.pow_succ_r in Hb by lia.
  split; [apply Z.div_pos; lia | apply Z.div_lt_upper_bound; lia].
Qed.

(** Run with enough fuel on a non-negative [b], the loop exits with
    the carry-less product added to [result]. *)
Lemma mul_loop_clmul (n fuel : nat) (a b r : Z) :
  0 <= b < 2 ^ Z.of_nat n -> (n < fuel)%nat ->
  mul_loop fuel self (a, b, r) = Some (Z.lxor r (clmul fs p n a b)).
Proof.
  revert fuel a b r. induction n as [| n IH]; intros fuel a b r Hb Hf.
  - destruct fuel as [| fuel]; [lia |]. simpl in Hb.
    assert (b = 0) as -> by lia. simpl. rewrite Z.lxor_0_r. reflexivity.
  - destruct fuel as [| fuel]; [lia |]. cbn [mul_loop].
    destruct (Z.eqb_spec b 0) as [-> | Hne].
    + cbn [clmul]. simpl (Z.land 0 1 =? 0). cbv iota.
      rewrite Z.shiftr_0_l.
      assert (H0 : forall k x, clmul fs p k x 0 = 0).
      { induction k as [| k IHk]; intros x; simpl; [reflexivity |].
        rewrite Z.shiftr_0_l, IHk. reflexivity. }
      rewrite H0, Z.lxor_0_r. simpl. reflexivity.
    + rewrite mul_step_eq, IH by (try apply shiftr_1_bound; auto; lia).
      cbn [clmul]. fold fs p.
      destruct (Z.land b 1 =? 0).
      * rewrite Z.lxor_0_l. reflexivity.
      * rewrite Z.lxor_assoc. reflexivity.
Qed.

(** More fuel does not change a result. *)
Lemma mul_loop_fuel_mono (fuel fuel' : nat) (st : Z * Z * Z) (v : Z) :
  mul_loop fuel self st = Some v -> (fuel <= fuel')%nat ->
  mul_loop fuel' self st = Some v.
Proof.
  revert fuel' st. induction fuel as [| fuel IH]; intros fuel' st H Hle.
  - discriminate.
  - destruct fuel' as [| fuel']; [lia |].
    destruct st as [[a b] r]. cbn [mul_loop] in *.
    destruct (b =? 0); [exact H |]. apply IH; [exact H | lia].
Qed.

(** On a negative [b] the loop never exits: [b >> 1] stays negative. *)
Lemma mul_loop_diverges (fuel : nat) (a b r : Z) :
  b < 0 -> mul_loop fuel self (a, b, r) = None.
Proof.
  revert a b r. induction fuel as [| fuel IH]; intros a b r Hb; [reflexivity |].
  cbn [mul_loop]. destruct (Z.eqb_spec b 0) as [-> | _]; [lia |].
  rewrite mul_step_eq. apply IH. apply Z.shiftr_neg. exact Hb.
Qed.

Lemma log2_bound (b : Z) : 0 <= b -> 0 <= b < 2 ^ Z.of_nat (S (Z.to_nat (Z.log2 b))).
Proof.
  intros Hb. split; [exact Hb |].
  rewrite Nat2Z.inj_succ, Z2Nat.id by apply Z.log2_nonneg.
  destruct (Z.eq_dec b 0) as [-> | Hne]; [reflexivity |].
  apply Z.log2_spec. lia.
Qed.

Lemma mwt_clmul (a b : Z) :
  0 <= b ->
  _multiply_without_tables self a b =
  Some (clmul fs p (S (Z.to_nat (Z.log2 b))) a b).
Proof.
  intros Hb. unfold _multiply_without_tables, mul_fuel.
  rewrite (mul_loop_clmul (S (Z.to_nat (Z.log2 b)))) by (try apply log2_bound; lia).
  rewrite Z.lxor_0_l. reflexivity.
Qed.

Lemma mwt_negative (a b : Z) :
  b < 0 -> _multiply_without_tables self a b = None.
Proof. intros Hb. apply mul_loop_diverges. exact Hb. Qed.

(** The call of the constructor: multiplication by the generator [2]
    is one [xtime]. *)
Lemma mwt_two (x : Z) :
  _multiply_without_tables self x 2 = Some (xtime fs p x).
Proof.
  unfold _multiply_without_tables. simpl.
  rewrite Z.lxor_0_l. reflexivity.
Qed.

End Loop.

(** The fuel of the model is no limit of the program: on a non-negative
    [b] every larger fuel gives the result of [mul_fuel b]. *)
Lemma mwt_fuel_independent (self : GaloisField) (a b : Z) (fuel : nat) :
  0 <= b -> (mul_fuel b <= fuel)%nat ->
  mul_loop fuel self (a, b, 0) = _multiply_without_tables self a b.
Proof.
  intros Hb Hf. rewrite (mwt_clmul self a b Hb).
  rewrite (mul_loop_clmul self (S (Z.to_nat (Z.log2 b))))
    by (try apply (log2_bound self); unfold mul_fuel in Hf; lia).
  rewrite Z.lxor_0_l. reflexivity.
Qed.

Example raw_product_11_13 : _multiply_without_tables gf16_field 11 13 = Some 6.
Proof. reflexivity. Qed.

Example raw_product_by_generator : _multiply_without_tables gf16_field 9 2 = Some 1.
Proof. reflexivity. Qed.

Example primitive_rs_polynomial : is_primitive 285 8 = true.
Proof. vm_compute. reflexivity. Qed.

(** Irreducible polynomials in which [x] has a smaller order are not
    primitive: [x^4 + x^3 + x^2 + x + 1] (order 5) and the polynomial
    [0x11B] of degree 8 (order 51). *)
Example irreducible_not_primitive :
  is_primitive 31 4 = false /\ is_primitive 283 8 = false.
Proof. split; vm_compute; reflexivity. Qed.

(** A reducible polynomial, [x^4 + 1]. *)
Example reducible_not_primitive : is_primitive 17 4 = false.
Proof. vm_compute. reflexivity. Qed.

(** ** Python lists and loops *)

Section Lists.

Lemma py_index_nonneg (len : nat) (i : Z) :
  0 <= i < Z.of_nat len -> py_index len i = Some (Z.to_nat i).
Proof.
  intros Hi. unfold py_index.
  destruct (Z.leb_spec 0 i); [| lia].
  destruct (Z.ltb_spec i (Z.of_nat len)); [reflexivity | lia].
Qed.

Lemma py_index_lt (len : nat) (i : Z) (n : nat) :
  py_index len i = Some n -> (n < len)%nat.
Proof.
  unfold py_index.
  destruct (Z.leb_spec 0 i), (Z.ltb_spec i (Z.of_nat len)); simpl;
    try (intros [= <-]; lia);
    destruct (Z.leb_spec (- Z.of_nat len) i), (Z.ltb_spec i 0); simpl;
    try discriminate; intros [= <-]; lia.
Qed.

Lemma getitem_nonneg (t : table) (l : list Z) (i v : Z) :
  0 <= i -> l !! Z.to_nat i = Some v -> getitem t l i = ([Read t i], Ok v).
Proof.
  intros Hi Hl. unfold getitem.
  assert (Hlt : (Z.to_nat i < length l)%nat) by (eapply lookup_lt_Some; exact Hl).
  rewrite py_index_nonneg by lia. rewrite Hl. reflexivity.
Qed.

Lemma getitem_in_range (t : table) (l : list Z) (i : Z) :
  0 <= i < Z.of_nat (length l) ->
  exists v, l !! Z.to_nat i = Some v /\ getitem t l i = ([Read t i], Ok v).
Proof.
  intros Hi. destruct (lookup_lt_is_Some_2 l (Z.to_nat i)) as [v Hv]; [lia |].
  exists v. split; [exact Hv | apply getitem_nonneg; [lia | exact Hv]].
Qed.

Lemma setitem_nonneg (t : table) (l : list Z) (i v : Z) :
  0 <= i < Z.of_nat (length l) ->
  setitem t l i v = ([Write t i v], Ok (<[Z.to_nat i := v]> l)).
Proof.
  intros Hi. unfold setitem. rewrite py_index_nonneg by lia. reflexivity.
Qed.

Lemma setitem_result (t : table) (l : list Z) (i v : Z) :
  result_of (setitem t l i v) =
  match py_index (length l) i with
  | Some n => Ok (<[n := v]> l)
  | None => Raise IndexError
  end.
Proof. unfold setitem. destruct (py_index (length l) i); reflexivity. Qed.

End Lists.

Example getitem_last : getitem LogT [10; 20; 30] (-1) = ([Read LogT (-1)], Ok 30).
Proof. reflexivity. Qed.

Example getitem_out_of_range : result_of (getitem LogT [10; 20; 30] 3) = Raise IndexError.
Proof. reflexivity. Qed.

Example setitem_out_of_range :
  result_of (setitem LogT [10; 20; 30] (-4) 0) = Raise IndexError.
Proof. reflexivity. Qed.

Section ForLoop.
Context {S : Type}.
Variable body : Z -> S -> Py S.
Variable I : nat -> S -> Prop.

Lemma for_loop_seq_inv (start len : nat) (s0 s' : S) :
  I start s0 ->
  (forall k s s1, (start <= k < start + len)%nat -> I k s ->
     result_of (body (Z.of_nat k) s) = Ok s1 -> I (Datatypes.S k) s1) ->
  result_of (for_loop (map Z.of_nat (seq start len)) body s0) = Ok s' ->
  I (start + len)%nat s'.
Proof.
  revert start s0. induction len as [| len IH]; intros start s0 H0 Hstep Hres.
  - simpl in Hres. injection Hres as <-. rewrite Nat.add_0_r. exact H0.
  - simpl in Hres. apply bind_ok_inv in Hres as (s1 & Hb & Hrest).
    replace (start + Datatypes.S len)%nat with (Datatypes.S start + len)%nat by lia.
    apply (IH (Datatypes.S start) s1).
    + apply (Hstep start s0); [lia | exact H0 | exact Hb].
    + intros k s s2 Hk. apply Hstep. lia.
    + exact Hrest.
Qed.

Lemma for_loop_seq_total (start len : nat) (s0 : S) :
  I start s0 ->
  (forall k s, (start <= k < start + len)%nat -> I k s ->
     exists s1, result_of (body (Z.of_nat k) s) = Ok s1 /\ I (Datatypes.S k) s1) ->
  exists s', result_of (for_loop (map Z.of_nat (seq start len)) body s0) = Ok s'
             /\ I (start + len)%nat s'.
Proof.
  revert start s0. induction len as [| len IH]; intros start s0 H0 Hstep.
  - exists s0. rewrite Nat.add_0_r. split; [reflexivity | exact H0].
  - destruct (Hstep start s0) as (s1 & Hb & H1); [lia | exact H0 |].
    destruct (IH (Datatypes.S start) s1) as (s' & Hres & H'); [exact H1 | |].
    + intros k s Hk. apply Hstep. lia.
    + exists s'. split.
      * simpl. rewrite result_of_bind, Hb. exact Hres.
      * replace (start + Datatypes.S len)%nat with (Datatypes.S start + len)%nat by lia.
        exact H'.
Qed.

End ForLoop.

(** ** The cycle of powers of [x] for a primitive polynomial *)

Section Primitive.
Variables (p mm : Z).
Hypothesis Hprim : is_primitive p mm = true.

Let fs := 2 ^ mm.
Let N := Z.to_nat (2 ^ mm - 1).

Lemma prim_unfold :
  0 < mm /\ 2 ^ mm <= p < 2 ^ (mm + 1) /\ xpow fs p N = 1 /\
  (forall k, (0 < k < N)%nat -> xpow fs p k <> 1).
Proof.
  unfold is_primitive in Hprim.
  apply andb_prop in Hprim as [H1 Hall].
  apply andb_prop in H1 as [H1 HN].
  apply andb_prop in H1 as [H1 Hhi].
  apply andb_prop in H1 as [Hpos Hlo].
  apply Z.ltb_lt in Hpos, Hhi. apply Z.leb_le in Hlo. apply Z.eqb_eq in HN.
  repeat split; try assumption.
  intros k Hk. rewrite forallb_forall in Hall.
  specialize (Hall k). rewrite in_seq in Hall.
  assert (Hneg : negb (xpow (2 ^ mm) p k =? 1) = true) by (apply Hall; unfold N in Hk; lia).
  apply negb_true_iff, Z.eqb_neq in Hneg. exact Hneg.
Qed.

Lemma prim_mm : 0 < mm.
Proof. apply prim_unfold. Qed.

Lemma prim_fs : 2 <= fs.
Proof.
  pose proof prim_mm as Hm. unfold fs.
  change 2 with (2 ^ 1) at 1. apply Z.pow_le_mono_r; lia.
Qed.

Lemma prim_N : Z.of_nat N = fs - 1.
Proof. pose proof prim_fs. unfold N, fs in *. lia. Qed.

Lemma prim_degree : 2 ^ mm <= p < 2 ^ (mm + 1).
Proof. apply prim_unfold. Qed.

Lemma xpow_N : xpow fs p N = 1.
Proof. apply prim_unfold. Qed.

Lemma xpow_order (k : nat) : (0 < k < N)%nat -> xpow fs p k <> 1.
Proof. apply prim_unfold. Qed.

Lemma xpow_add (a b : nat) :
  xpow fs p (a + b) = Nat.iter a (xtime fs p) (xpow fs p b).
Proof. unfold xpow. apply Nat.iter_add. Qed.

Lemma xpow_period (k : nat) : xpow fs p (k + N) = xpow fs p k.
Proof. rewrite xpow_add, xpow_N. reflexivity. Qed.

Lemma xpow_range (k : nat) : 0 <= xpow fs p k < fs.
Proof.
  pose proof prim_mm as Hm. pose proof prim_fs as Hf.
  induction k as [| k IH].
  - simpl. lia.
  - change (xpow fs p (S k)) with (xtime fs p (xpow fs p k)).
    apply (xtime_range mm); [lia | reflexivity | apply prim_degree | exact IH].
Qed.

Lemma xpow_nonzero (k : nat) : (k <= N)%nat -> xpow fs p k <> 0.
Proof.
  intros Hk H0. pose proof xpow_N as HN.
  replace N with ((N - k) + k)%nat in HN by lia.
  rewrite xpow_add, H0, iter_xtime_0 in HN. discriminate.
Qed.

Lemma xpow_inj (i j : nat) :
  (i < N)%nat -> (j < N)%nat -> xpow fs p i = xpow fs p j -> i = j.
Proof.
  assert (Hlt : forall i j, (i < j < N)%nat -> xpow fs p i <> xpow fs p j).
  { clear i j. intros i j Hij Heq.
    apply (xpow_order (j - i)); [lia |].
    assert (H1 : Nat.iter (N - i) (xtime fs p) (xpow fs p i) = 1).
    { rewrite <- xpow_add. replace (N - i + i)%nat with N by lia. apply xpow_N. }
    rewrite Heq, <- xpow_add in H1.
    replace (N - i + j)%nat with ((j - i) + N)%nat in H1 by lia.
    rewrite xpow_period in H1. exact H1. }
  intros Hi Hj Heq.
  destruct (Nat.lt_trichotomy i j) as [H | [H | H]]; [| exact H |].
  - exfalso. apply (Hlt i j); [lia | exact Heq].
  - exfalso. apply (Hlt j i); [lia | symmetry; exact Heq].
Qed.

(** The [N] powers are distinct and nonzero, and there are [N] nonzero
    polynomials of degree below [mm]: every one of them is a power. *)
Lemma xpow_surj (a : Z) :
  0 < a < fs -> exists k, (k < N)%nat /\ xpow fs p k = a.
Proof.
  intros Ha.
  set (powers := map (xpow fs p) (seq 0 N)).
  set (elems := map Z.of_nat (seq 1 N)).
  assert (Hnd : List.NoDup powers).
  { apply NoDup_map_NoDup_ForallPairs; [| apply seq_NoDup].
    intros i j Hi Hj. apply in_seq in Hi, Hj. apply xpow_inj; lia. }
  assert (Hincl : incl powers elems).
  { intros y Hy. apply in_map_iff in Hy as (k & <- & Hk). apply in_seq in Hk.
    pose proof (xpow_range k) as Hr.
    pose proof (xpow_nonzero k ltac:(lia)) as Hz.
    pose proof prim_N as HN.
    apply in_map_iff. exists (Z.to_nat (xpow fs p k)).
    split; [lia |]. apply in_seq. lia. }
  assert (Hlen : (length elems <= length powers)%nat).
  { unfold elems, powers. rewrite !length_map, !length_seq. lia. }
  pose proof (NoDup_length_incl Hnd Hlen Hincl) as Hback.
  assert (Hin : In a elems).
  { apply in_map_iff. exists (Z.to_nat a). split; [lia |].
    apply in_seq. pose proof prim_N. lia. }
  apply Hback, in_map_iff in Hin as (k & Hk & Hin).
  apply in_seq in Hin. exists k. split; [lia | exact Hk].
Qed.

End Primitive.

(** ** The constructor *)

Section Constructor.
Variables (p mm : Z).

Lemma init_result :
  result_of (__init__ p mm) =
  if mm <? 0 then Raise (ValueError "negative shift count")
  else match result_of (for_loop (range (2 ^ mm - 1)) init_body (self0 p mm, 1)) with
       | Ok st => Ok (fst st)
       | Raise e => Raise e
       | Diverge => Diverge
       end.
Proof.
  unfold __init__, py_shiftl. destruct (Z.ltb_spec mm 0) as [Hneg | Hpos].
  - reflexivity.
  - rewrite result_of_bind. cbn [result_of ret snd].
    rewrite Z.shiftl_1_l, result_of_bind. fold (self0 p mm).
    destruct (result_of (for_loop _ _ _)); reflexivity.
Qed.

(** One pass of the loop body, when the two writes to the exponent
    table are in range. *)
Lemma init_body_result (k : nat) (self : GaloisField) (x : Z) :
  1 <= field_size self ->
  Z.of_nat k + field_size self - 1 < Z.of_nat (length (exp_table self)) ->
  result_of (init_body (Z.of_nat k) (self, x)) =
  match py_index (length (log_table self)) x with
  | Some n =>
      Ok (set_log_table
            (set_exp_table self
               (<[Z.to_nat (Z.of_nat k + field_size self - 1) := x]>
                  (<[k := x]> (exp_table self))))
            (<[n := Z.of_nat k]> (log_table self)),
          xtime (field_size self) (primitive_poly self) x)
  | None => Raise IndexError
  end.
Proof.
  intros Hfs Hlen. unfold init_body.
  rewrite setitem_nonneg by lia. rewrite Nat2Z.id.
  rewrite result_of_bind. cbn [result_of snd set_exp_table exp_table field_size].
  rewrite setitem_nonneg by (rewrite length_insert; lia).
  rewrite result_of_bind. cbn [result_of snd set_exp_table exp_table log_table].
  rewrite result_of_bind, setitem_result.
  destruct (py_index (length (log_table self)) x) as [n |]; [| reflexivity].
  rewrite result_of_bind, mwt_two. reflexivity.
Qed.

Hypothesis Hmm : 0 <= mm.

Lemma pow_pos : 1 <= 2 ^ mm.
Proof. pose proof (Z.pow_pos_nonneg 2 mm). lia. Qed.

Lemma basic_inv_0 : basic_inv p mm 0 (self0 p mm, 1).
Proof.
  unfold basic_inv. cbn [fst self0 m primitive_poly field_size mask exp_table log_table].
  rewrite !length_replicate. repeat split; try reflexivity. intros j Hj. lia.
Qed.

Lemma basic_inv_step (k : nat) (st st' : GaloisField * Z) :
  (k < Z.to_nat (2 ^ mm - 1))%nat -> basic_inv p mm k st ->
  result_of (init_body (Z.of_nat k) st) = Ok st' -> basic_inv p mm (S k) st'.
Proof.
  pose proof pow_pos as Hpos.
  intros Hk (Hm & Hp & Hfs & Hmask & Hle & Hll & Hdup) Hres.
  destruct st as [self x]. cbn [fst] in *.
  rewrite init_body_result in Hres by lia.
  destruct (py_index (length (log_table self)) x) as [n |]; [| discriminate].
  injection Hres as <-. unfold basic_inv.
  cbn [fst set_log_table set_exp_table m primitive_poly field_size mask
       exp_table log_table].
  rewrite !length_insert. repeat split; try assumption.
  intros j Hj. rewrite Hfs.
  replace (Z.to_nat (Z.of_nat k + 2 ^ mm - 1)) with (k + Z.to_nat (2 ^ mm - 1))%nat by lia.
  destruct (Nat.eq_dec j k) as [-> | Hne].
  - exists x. split.
    + rewrite list_lookup_insert_ne by lia.
      apply list_lookup_insert_eq. lia.
    + apply list_lookup_insert_eq. rewrite length_insert. lia.
  - destruct (Hdup j) as (v & H1 & H2); [lia |].
    exists v. rewrite !list_lookup_insert_ne by lia. split; assumption.
Qed.

Lemma init_basic (gf : GaloisField) :
  result_of (__init__ p mm) = Ok gf ->
  basic_inv p mm (Z.to_nat (2 ^ mm - 1)) (gf, 0).
Proof.
  rewrite init_result. destruct (Z.ltb_spec mm 0) as [? | _]; [lia |].
  destruct (result_of (for_loop _ _ _)) as [st | e |] eqn:Hloop; try discriminate.
  intros [= <-].
  apply (for_loop_seq_inv init_body (basic_inv p mm) 0 (Z.to_nat (2 ^ mm - 1))) in Hloop.
  - exact Hloop.
  - apply basic_inv_0.
  - intros k s s1 Hk. apply basic_inv_step. lia.
Qed.

End Constructor.

Lemma init_ok_nonneg (p mm : Z) (gf : GaloisField) :
  result_of (__init__ p mm) = Ok gf -> 0 <= mm.
Proof.
  rewrite init_result. destruct (Z.ltb_spec mm 0) as [? | ?]; [discriminate | lia].
Qed.

(** The constructor checks none of its arguments: a negative degree
    fails in the shift, a polynomial without the leading bit lets [x]
    leave the log table, and a polynomial that is not primitive gives
    tables with stale entries (here [log_table[3]], never assigned). *)
Example init_negative_degree :
  result_of (__init__ 19 (-1)) = Raise (ValueError "negative shift count").
Proof. reflexivity. Qed.

Example init_zero_polynomial : result_of (__init__ 0 4) = Raise IndexError.
Proof. vm_compute. reflexivity. Qed.

Example init_not_primitive :
  exists gf, result_of (__init__ 31 4) = Ok gf /\
             firstn 6 (exp_table gf) = [1; 2; 4; 8; 15; 1] /\
             log_table gf !! 3%nat = Some 0.
Proof. eexists. split; [vm_compute; reflexivity | split; reflexivity]. Qed.

(** ** The tables of a field built from a primitive polynomial *)

Section Tables.
Variables (p mm : Z).
Hypothesis Hprim : is_primitive p mm = true.

Let N := Z.to_nat (2 ^ mm - 1).

Lemma prim_inv_step (k : nat) (st : GaloisField * Z) :
  (k < N)%nat -> prim_inv p mm k st ->
  exists st', result_of (init_body (Z.of_nat k) st) = Ok st' /\ prim_inv p mm (S k) st'.
Proof.
  pose proof (prim_mm p mm Hprim) as Hm.
  pose proof (prim_N p mm Hprim) as HN. fold N in HN.
  intros Hk (Hbasic & Hx & Hexp & Hlog).
  pose proof Hbasic as (_ & Hp & Hfs & _ & Hle & Hll & _).
  destruct st as [self x]. cbn [fst snd] in *. subst x.
  pose proof (xpow_range p mm Hprim k) as Hr.
  pose proof (xpow_nonzero p mm Hprim k ltac:(fold N; lia)) as Hz.
  assert (Hidx : py_index (length (log_table self)) (xpow (2 ^ mm) p k)
                 = Some (Z.to_nat (xpow (2 ^ mm) p k))).
  { apply py_index_nonneg. rewrite Hll. lia. }
  assert (Hbody := init_body_result k self (xpow (2 ^ mm) p k)).
  rewrite Hidx in Hbody.
  eexists. split; [apply Hbody; rewrite ?Hfs, ?Hle; lia |].
  split; [| split; [| split]].
  - eapply basic_inv_step; [lia | exact Hk | exact Hbasic |].
    rewrite Hbody by (rewrite ?Hfs, ?Hle; lia). reflexivity.
  - cbn [snd]. rewrite Hfs, Hp. reflexivity.
  - cbn [fst set_log_table set_exp_table exp_table]. intros j Hj.
    rewrite list_lookup_insert_ne by (rewrite Hfs; lia).
    destruct (Nat.eq_dec j k) as [-> | Hne].
    + apply list_lookup_insert_eq. rewrite Hle. lia.
    + rewrite list_lookup_insert_ne by lia. apply Hexp. lia.
  - cbn [fst set_log_table set_exp_table log_table]. intros j Hj.
    destruct (Nat.eq_dec j k) as [-> | Hne].
    + apply list_lookup_insert_eq. rewrite Hll. lia.
    + rewrite list_lookup_insert_ne; [apply Hlog; lia |].
      intros Heq.
      pose proof (xpow_range p mm Hprim j) as Hrj.
      apply Hne. apply (xpow_inj p mm Hprim); fold N; lia.
Qed.

Lemma prim_inv_0 : prim_inv p mm 0 (self0 p mm, 1).
Proof.
  pose proof (prim_mm p mm Hprim) as Hm.
  split; [apply basic_inv_0 | split; [reflexivity | split]]; intros j Hj; lia.
Qed.

(** Construction from a primitive polynomial succeeds and fills both
    tables. *)
Lemma init_tables :
  exists gf, result_of (__init__ p mm) = Ok gf /\ tables_ok p mm gf.
Proof.
  pose proof (prim_mm p mm Hprim) as Hm.
  destruct (for_loop_seq_total init_body (prim_inv p mm) 0 N (self0 p mm, 1))
    as (st & Hres & Hinv).
  - apply prim_inv_0.
  - intros k s Hk. apply prim_inv_step. lia.
  - exists (fst st). split.
    + rewrite init_result. destruct (Z.ltb_spec mm 0); [lia |].
      unfold range. fold N. rewrite Hres. reflexivity.
    + destruct Hinv as ((_ & Hp & Hfs & _ & Hle & Hll & _) & _ & Hexp & Hlog).
      repeat split; assumption.
Qed.

Lemma init_tables_ok (gf : GaloisField) :
  result_of (__init__ p mm) = Ok gf -> tables_ok p mm gf.
Proof.
  intros Hgf. destruct init_tables as (gf' & Hgf' & Hok).
  rewrite Hgf in Hgf'. injection Hgf' as <-. exact Hok.
Qed.

End Tables.

(** ** The table-driven queries *)

Section Queries.
Variable gf : GaloisField.

Lemma getitem_trace (t : table) (l : list Z) (i : Z) :
  trace_of (getitem t l i) = [Read t i].
Proof.
  unfold getitem. destruct (py_index (length l) i) as [n |]; [| reflexivity].
  simpl. destruct (l !! n); reflexivity.
Qed.

Lemma getitem_raise (t : table) (l : list Z) (i : Z) (e : exn) :
  result_of (getitem t l i) = Raise e -> e = IndexError.
Proof.
  unfold getitem. destruct (py_index (length l) i) as [n |]; simpl.
  - destruct (l !! n); simpl; [discriminate | intros [= <-]; reflexivity].
  - intros [= <-]. reflexivity.
Qed.

Lemma getitem_no_diverge (t : table) (l : list Z) (i : Z) :
  result_of (getitem t l i) <> Diverge.
Proof.
  unfold getitem. destruct (py_index (length l) i) as [n |]; simpl.
  - destruct (l !! n); simpl; discriminate.
  - discriminate.
Qed.

Lemma py_mod_nonzero (a n : Z) : n <> 0 -> py_mod a n = ([], Ok (a mod n)).
Proof. intros Hn. unfold py_mod. destruct (Z.eqb_spec n 0); [lia | reflexivity]. Qed.

(** The table path shared by the three queries: two or one logarithms,
    a modulo, one exponent. *)
Lemma multiply_eval (a b la lb v : Z) :
  0 < a -> 0 < b ->
  log_table gf !! Z.to_nat a = Some la -> log_table gf !! Z.to_nat b = Some lb ->
  1 < field_size gf ->
  exp_table gf !! Z.to_nat ((la + lb) mod (field_size gf - 1)) = Some v ->
  multiply gf a b =
  ([Read LogT a; Read LogT b; Read ExpT ((la + lb) mod (field_size gf - 1))], Ok v).
Proof.
  intros Ha Hb Hla Hlb Hfs Hv. unfold multiply.
  destruct (Z.eqb_spec a 0); [lia |]. destruct (Z.eqb_spec b 0); [lia |].
  cbn [orb]. rewrite (getitem_nonneg LogT _ a la), (getitem_nonneg LogT _ b lb)
    by (try assumption; lia).
  cbn [bind]. rewrite py_mod_nonzero by lia.
  assert (0 <= (la + lb) mod (field_size gf - 1)) by (apply Z.mod_pos_bound; lia).
  cbn [bind]. rewrite (getitem_nonneg ExpT _ _ v) by assumption. reflexivity.
Qed.

Lemma divide_eval (a b la lb v : Z) :
  0 < a -> 0 < b ->
  log_table gf !! Z.to_nat a = Some la -> log_table gf !! Z.to_nat b = Some lb ->
  1 < field_size gf ->
  exp_table gf !! Z.to_nat ((la - lb) mod (field_size gf - 1)) = Some v ->
  divide gf a b =
  ([Read LogT a; Read LogT b; Read ExpT ((la - lb) mod (field_size gf - 1))], Ok v).
Proof.
  intros Ha Hb Hla Hlb Hfs Hv. unfold divide.
  destruct (Z.eqb_spec b 0); [lia |]. destruct (Z.eqb_spec a 0); [lia |].
  rewrite (getitem_nonneg LogT _ a la), (getitem_nonneg LogT _ b lb)
    by (try assumption; lia).
  cbn [bind]. rewrite py_mod_nonzero by lia.
  assert (0 <= (la - lb) mod (field_size gf - 1)) by (apply Z.mod_pos_bound; lia).
  cbn [bind]. rewrite (getitem_nonneg ExpT _ _ v) by assumption. reflexivity.
Qed.

Lemma inverse_eval (a la v : Z) :
  0 < a ->
  log_table gf !! Z.to_nat a = Some la ->
  1 < field_size gf ->
  exp_table gf !! Z.to_nat ((- la) mod (field_size gf - 1)) = Some v ->
  inverse gf a =
  ([Read LogT a; Read ExpT ((- la) mod (field_size gf - 1))], Ok v).
Proof.
  intros Ha Hla Hfs Hv. unfold inverse.
  destruct (Z.eqb_spec a 0); [lia |].
  rewrite (getitem_nonneg LogT _ a la) by (try assumption; lia).
  cbn [bind]. rewrite py_mod_nonzero by lia.
  assert (0 <= (- la) mod (field_size gf - 1)) by (apply Z.mod_pos_bound; lia).
  cbn [bind]. rewrite (getitem_nonneg ExpT _ _ v) by assumption. reflexivity.
Qed.

End Queries.

(** Shape of any object the constructor returns. *)
Lemma init_shape (p mm : Z) (gf : GaloisField) :
  result_of (__init__ p mm) = Ok gf ->
  0 <= mm /\ field_size gf = 2 ^ mm /\ 1 <= field_size gf /\
  Z.of_nat (length (exp_table gf)) = 2 * field_size gf /\
  Z.of_nat (length (log_table gf)) = field_size gf.
Proof.
  intros Hgf. pose proof (init_ok_nonneg p mm gf Hgf) as Hmm.
  destruct (init_basic p mm Hmm gf Hgf) as (_ & _ & Hfs & _ & Hle & Hll & _).
  cbn [fst] in *. pose proof (pow_pos mm Hmm).
  rewrite Hfs, Hle, Hll. lia.
Qed.


(** ** The example field GF(2^4) *)

Lemma gf16_built : result_of gf16 = Ok gf16_field.
Proof. vm_compute. reflexivity. Qed.

Lemma gf16_primitive : is_primitive 19 4 = true.
Proof. vm_compute. reflexivity. Qed.

(** C1, as the specification states it, does not hold: of the four
    values listed for [a = 11], [b = 13] in GF(2^4) with polynomial
    [0b10011], only the sum is what the program returns. *)
Lemma example_values_as_specified_fail :
  ~ (result_of (self <- gf16 ;; add self 11 13) = Ok 6 /\
     result_of (self <- gf16 ;; multiply self 11 13) = Ok 10 /\
     result_of (self <- gf16 ;; divide self 11 13) = Ok 12 /\
     result_of (self <- gf16 ;; inverse self 11) = Ok 13).
Proof.
  intros (_ & Hmul & _). vm_compute in Hmul. discriminate.
Qed.

(** C1 (amended): in the field built with [primitive_poly = 0b10011] and
    [m = 4], for [a = 0b1011] and [b = 0b1101], [add(a, b)] returns
    [0b0110] (6), [multiply(a, b)] returns [0b0110] (6), [divide(a, b)]
    returns [0b1010] (10) and [inverse(a)] returns [0b0101] (5). *)
Theorem example_values :
  result_of (self <- gf16 ;; add self 11 13) = Ok 6 /\
  result_of (self <- gf16 ;; multiply self 11 13) = Ok 6 /\
  result_of (self <- gf16 ;; divide self 11 13) = Ok 10 /\
  result_of (self <- gf16 ;; inverse self 11) = Ok 5.
Proof. repeat split; vm_compute; reflexivity. Qed.

(** ** Fields built from a primitive polynomial *)

Section PrimitiveField.
Variables (p mm : Z) (gf : GaloisField).
Hypothesis Hprim : is_primitive p mm = true.
Hypothesis Hgf : result_of (__init__ p mm) = Ok gf.

Let fs := 2 ^ mm.
Let N := Z.to_nat (2 ^ mm - 1).

Lemma pf_field_size : field_size gf = fs /\ 2 <= fs /\ Z.of_nat N = fs - 1.
Proof.
  destruct (init_tables_ok p mm Hprim gf Hgf) as (_ & Hfs & _).
  split; [exact Hfs |]. split; [apply (prim_fs p mm Hprim) | apply (prim_N p mm Hprim)].
Qed.

Lemma pf_poly : primitive_poly gf = p.
Proof. apply (init_tables_ok p mm Hprim gf Hgf). Qed.

(** Every exponent of the first period indexes the matching power. *)
Lemma pf_exp (k : Z) :
  0 <= k < fs - 1 -> exp_table gf !! Z.to_nat k = Some (xpow fs p (Z.to_nat k)).
Proof.
  intros Hk. destruct (init_tables_ok p mm Hprim gf Hgf) as (_ & _ & _ & _ & Hexp & _).
  apply Hexp. fold fs. lia.
Qed.

(** A power of [x] is a nonzero element and the log table gives its
    exponent. *)
Lemma pf_pow (k : Z) :
  0 <= k < fs - 1 ->
  0 < xpow fs p (Z.to_nat k) < fs /\
  log_table gf !! Z.to_nat (xpow fs p (Z.to_nat k)) = Some k.
Proof.
  intros Hk. destruct (init_tables_ok p mm Hprim gf Hgf) as (_ & _ & _ & _ & _ & Hlog).
  pose proof (xpow_range p mm Hprim (Z.to_nat k)) as Hr.
  pose proof (xpow_nonzero p mm Hprim (Z.to_nat k) ltac:(lia)) as Hz.
  fold fs in Hr, Hz. split; [lia |].
  fold fs in Hlog. rewrite Hlog by lia. f_equal. lia.
Qed.

(** Every nonzero element is a power of [x], and the log table gives
    its exponent. *)
Lemma pf_log (a : Z) :
  0 < a < fs ->
  exists i, 0 <= i < fs - 1 /\ a = xpow fs p (Z.to_nat i) /\
            log_table gf !! Z.to_nat a = Some i.
Proof.
  intros Ha. destruct (xpow_surj p mm Hprim a Ha) as (k & Hk & Hpow).
  fold N fs in Hk, Hpow. destruct pf_field_size as (_ & _ & HN).
  exists (Z.of_nat k). split; [lia |]. rewrite Nat2Z.id. split; [congruence |].
  destruct (pf_pow (Z.of_nat k)) as [_ Hlog]; [lia |].
  rewrite Nat2Z.id, Hpow in Hlog. exact Hlog.
Qed.

Lemma pf_multiply (i j : Z) :
  0 <= i < fs - 1 -> 0 <= j < fs - 1 ->
  result_of (multiply gf (xpow fs p (Z.to_nat i)) (xpow fs p (Z.to_nat j))) =
  Ok (xpow fs p (Z.to_nat ((i + j) mod (fs - 1)))).
Proof.
  intros Hi Hj. destruct pf_field_size as (Hfs & Hfs2 & _).
  destruct (pf_pow i Hi) as [Hri Hli]. destruct (pf_pow j Hj) as [Hrj Hlj].
  assert (Hk : 0 <= (i + j) mod (fs - 1) < fs - 1) by (apply Z.mod_pos_bound; lia).
  rewrite (multiply_eval gf _ _ i j (xpow fs p (Z.to_nat ((i + j) mod (fs - 1)))));
    try assumption; try lia.
  - reflexivity.
  - rewrite Hfs. apply pf_exp. exact Hk.
Qed.

Lemma pf_divide (i j : Z) :
  0 <= i < fs - 1 -> 0 <= j < fs - 1 ->
  result_of (divide gf (xpow fs p (Z.to_nat i)) (xpow fs p (Z.to_nat j))) =
  Ok (xpow fs p (Z.to_nat ((i - j) mod (fs - 1)))).
Proof.
  intros Hi Hj. destruct pf_field_size as (Hfs & Hfs2 & _).
  destruct (pf_pow i Hi) as [Hri Hli]. destruct (pf_pow j Hj) as [Hrj Hlj].
  assert (Hk : 0 <= (i - j) mod (fs - 1) < fs - 1) by (apply Z.mod_pos_bound; lia).
  rewrite (divide_eval gf _ _ i j (xpow fs p (Z.to_nat ((i - j) mod (fs - 1)))));
    try assumption; try lia.
  - reflexivity.
  - rewrite Hfs. apply pf_exp. exact Hk.
Qed.

Lemma pf_inverse (i : Z) :
  0 <= i < fs - 1 ->
  result_of (inverse gf (xpow fs p (Z.to_nat i))) =
  Ok (xpow fs p (Z.to_nat ((- i) mod (fs - 1)))).
Proof.
  intros Hi. destruct pf_field_size as (Hfs & Hfs2 & _).
  destruct (pf_pow i Hi) as [Hri Hli].
  assert (Hk : 0 <= (- i) mod (fs - 1) < fs - 1) by (apply Z.mod_pos_bound; lia).
  rewrite (inverse_eval gf _ i (xpow fs p (Z.to_nat ((- i) mod (fs - 1)))));
    try assumption; try lia.
  - reflexivity.
  - rewrite Hfs. apply pf_exp. exact Hk.
Qed.

(** The exponents of a product add up modulo the period. *)
Lemma xpow_mod (i j : Z) :
  0 <= i < fs - 1 -> 0 <= j < fs - 1 ->
  xpow fs p (Z.to_nat i + Z.to_nat j) = xpow fs p (Z.to_nat ((i + j) mod (fs - 1))).
Proof.
  intros Hi Hj. destruct pf_field_size as (_ & _ & HN).
  destruct (Z_lt_le_dec (i + j) (fs - 1)) as [Hlt | Hge].
  - rewrite Z.mod_small by lia. f_equal. lia.
  - assert (Hm : (i + j) mod (fs - 1) = i + j - (fs - 1)).
    { symmetry. apply (Z.mod_unique_pos _ _ 1); lia. }
    rewrite Hm.
    replace (Z.to_nat i + Z.to_nat j)%nat with (Z.to_nat (i + j - (fs - 1)) + N)%nat by lia.
    apply (xpow_period p mm Hprim).
Qed.

(** The raw routine on two powers of [x]. *)
Lemma pf_raw (i : Z) (b : Z) :
  0 <= i < fs - 1 -> 0 < b < fs ->
  _multiply_without_tables gf (xpow fs p (Z.to_nat i)) b =
  Some (Nat.iter (Z.to_nat i) (xtime fs p) b).
Proof.
  intros Hi Hb. destruct pf_field_size as (Hfs & _ & _).
  pose proof (prim_mm p mm Hprim) as Hmm.
  rewrite mwt_clmul by lia. rewrite Hfs, pf_poly. f_equal.
  apply (clmul_xpow mm); try lia; try reflexivity.
  - rewrite Nat2Z.inj_succ, Z2Nat.id by apply Z.log2_nonneg.
    assert (Z.log2 b < mm) by (apply Z.log2_lt_pow2; [lia | apply Hb]). lia.
  - apply (log2_bound gf). lia.
Qed.

End PrimitiveField.

(** ** Properties of the specification *)

(** C2: in a field built from a primitive polynomial of degree [m], for
    all elements [a] and [b] the table-driven [multiply(a, b)] returns
    what the raw routine [_multiply_without_tables(a, b)] returns. *)
Theorem multiply_agrees_with_raw (p mm : Z) (gf : GaloisField) (a b : Z) :
  is_primitive p mm = true ->
  result_of (__init__ p mm) = Ok gf ->
  0 <= a < field_size gf -> 0 <= b < field_size gf ->
  exists v, _multiply_without_tables gf a b = Some v /\
            result_of (multiply gf a b) = Ok v.
Proof.
  intros Hprim Hgf Ha Hb.
  destruct (pf_field_size p mm gf Hprim Hgf) as (Hfs & Hfs2 & HN).
  pose proof (prim_mm p mm Hprim) as Hmm.
  destruct (Z.eq_dec a 0) as [-> | Hna].
  { exists 0. split; [| reflexivity].
    rewrite mwt_clmul by lia. rewrite clmul_0_l. reflexivity. }
  destruct (Z.eq_dec b 0) as [-> | Hnb].
  { exists 0. split; [reflexivity |].
    unfold multiply. rewrite orb_true_r. reflexivity. }
  destruct (pf_log p mm gf Hprim Hgf a) as (i & Hi & -> & _); [lia |].
  destruct (pf_log p mm gf Hprim Hgf b) as (j & Hj & Hbj & _); [lia |].
  exists (xpow (2 ^ mm) p (Z.to_nat ((i + j) mod (2 ^ mm - 1)))). split.
  - rewrite (pf_raw p mm gf Hprim Hgf) by lia.
    rewrite Hbj, <- (xpow_add p mm). f_equal.
    apply (xpow_mod p mm gf Hprim Hgf); assumption.
  - rewrite Hbj. apply (pf_multiply p mm gf Hprim Hgf); assumption.
Qed.

Lemma multiply_agrees_with_raw_witness :
  exists v, _multiply_without_tables gf16_field 11 13 = Some v /\
            result_of (multiply gf16_field 11 13) = Ok v.
Proof.
  apply (multiply_agrees_with_raw 19 4 gf16_field 11 13).
  - vm_compute. reflexivity.
  - vm_compute. reflexivity.
  - simpl. lia.
  - simpl. lia.
Defined.

(** C3: in a field built from a primitive polynomial of degree [m], for
    every nonzero element [a], [multiply(a, inverse(a))] returns 1. *)
Theorem inverse_law (p mm : Z) (gf : GaloisField) (a : Z) :
  is_primitive p mm = true ->
  result_of (__init__ p mm) = Ok gf ->
  0 < a < field_size gf ->
  result_of (ia <- inverse gf a ;; multiply gf a ia) = Ok 1.
Proof.
  intros Hprim Hgf Ha.
  destruct (pf_field_size p mm gf Hprim Hgf) as (Hfs & Hfs2 & HN).
  destruct (pf_log p mm gf Hprim Hgf a) as (i & Hi & -> & _); [lia |].
  assert (Hk : 0 <= (- i) mod (2 ^ mm - 1) < 2 ^ mm - 1)
    by (apply Z.mod_pos_bound; lia).
  rewrite result_of_bind, (pf_inverse p mm gf Hprim Hgf) by assumption.
  rewrite (pf_multiply p mm gf Hprim Hgf) by assumption.
  rewrite Z.add_mod_idemp_r, Z.add_opp_diag_r, Z.mod_0_l by lia.
  reflexivity.
Qed.

Lemma inverse_law_witness :
  result_of (ia <- inverse gf16_field 11 ;; multiply gf16_field 11 ia) = Ok 1.
Proof.
  apply (inverse_law 19 4 gf16_field 11).
  - vm_compute. reflexivity.
  - vm_compute. reflexivity.
  - simpl. lia.
Defined.

(** C4: in a field built from a primitive polynomial of degree [m], for
    every element [a] and every nonzero element [b],
    [multiply(divide(a, b), b)] returns [a]. *)
Theorem divide_multiply_roundtrip (p mm : Z) (gf : GaloisField) (a b : Z) :
  is_primitive p mm = true ->
  result_of (__init__ p mm) = Ok gf ->
  0 <= a < field_size gf -> 0 < b < field_size gf ->
  result_of (q <- divide gf a b ;; multiply gf q b) = Ok a.
Proof.
  intros Hprim Hgf Ha Hb.
  destruct (pf_field_size p mm gf Hprim Hgf) as (Hfs & Hfs2 & HN).
  destruct (Z.eq_dec a 0) as [-> | Hna].
  { unfold divide. destruct (Z.eqb_spec b 0); [lia |]. reflexivity. }
  destruct (pf_log p mm gf Hprim Hgf a) as (i & Hi & -> & _); [lia |].
  destruct (pf_log p mm gf Hprim Hgf b) as (j & Hj & -> & _); [lia |].
  assert (Hk : 0 <= (i - j) mod (2 ^ mm - 1) < 2 ^ mm - 1)
    by (apply Z.mod_pos_bound; lia).
  rewrite result_of_bind, (pf_divide p mm gf Hprim Hgf) by assumption.
  rewrite (pf_multiply p mm gf Hprim Hgf) by assumption.
  rewrite Z.add_mod_idemp_l by lia.
  replace (i - j + j) with i by lia. rewrite Z.mod_small by lia. reflexivity.
Qed.

Lemma divide_multiply_roundtrip_witness :
  result_of (q <- divide gf16_field 11 13 ;; multiply gf16_field q 13) = Ok 11.
Proof.
  apply (divide_multiply_roundtrip 19 4 gf16_field 11 13).
  - vm_compute. reflexivity.
  - vm_compute. reflexivity.
  - simpl. lia.
  - simpl. lia.
Defined.

(** ** Queries on any constructed field *)

Section AnyField.
Variables (p mm : Z) (gf : GaloisField).
Hypothesis Hgf : result_of (__init__ p mm) = Ok gf.

Lemma af_log (a : Z) :
  0 <= a < field_size gf -> exists la, log_table gf !! Z.to_nat a = Some la.
Proof.
  intros Ha. destruct (init_shape p mm gf Hgf) as (_ & _ & _ & _ & Hll).
  apply lookup_lt_is_Some_2. lia.
Qed.

Lemma af_exp (k : Z) :
  0 <= k < field_size gf - 1 -> exists v, exp_table gf !! Z.to_nat k = Some v.
Proof.
  intros Hk. destruct (init_shape p mm gf Hgf) as (_ & _ & _ & Hle & _).
  apply lookup_lt_is_Some_2. lia.
Qed.

Lemma af_multiply (a b : Z) :
  0 < a < field_size gf -> 0 < b < field_size gf ->
  exists k v, 0 <= k < field_size gf - 1 /\
    multiply gf a b = ([Read LogT a; Read LogT b; Read ExpT k], Ok v).
Proof.
  intros Ha Hb.
  destruct (af_log a) as [la Hla]; [lia |]. destruct (af_log b) as [lb Hlb]; [lia |].
  assert (Hk : 0 <= (la + lb) mod (field_size gf - 1) < field_size gf - 1)
    by (apply Z.mod_pos_bound; lia).
  destruct (af_exp _ Hk) as [v Hv].
  exists ((la + lb) mod (field_size gf - 1)), v. split; [exact Hk |].
  apply multiply_eval; try assumption; lia.
Qed.

Lemma af_divide (a b : Z) :
  0 < a < field_size gf -> 0 < b < field_size gf ->
  exists k v, 0 <= k < field_size gf - 1 /\
    divide gf a b = ([Read LogT a; Read LogT b; Read ExpT k], Ok v).
Proof.
  intros Ha Hb.
  destruct (af_log a) as [la Hla]; [lia |]. destruct (af_log b) as [lb Hlb]; [lia |].
  assert (Hk : 0 <= (la - lb) mod (field_size gf - 1) < field_size gf - 1)
    by (apply Z.mod_pos_bound; lia).
  destruct (af_exp _ Hk) as [v Hv].
  exists ((la - lb) mod (field_size gf - 1)), v. split; [exact Hk |].
  apply divide_eval; try assumption; lia.
Qed.

Lemma af_inverse (a : Z) :
  0 < a < field_size gf ->
  exists k v, 0 <= k < field_size gf - 1 /\
    inverse gf a = ([Read LogT a; Read ExpT k], Ok v).
Proof.
  intros Ha.
  destruct (af_log a) as [la Hla]; [lia |].
  assert (Hk : 0 <= (- la) mod (field_size gf - 1) < field_size gf - 1)
    by (apply Z.mod_pos_bound; lia).
  destruct (af_exp _ Hk) as [v Hv].
  exists ((- la) mod (field_size gf - 1)), v. split; [exact Hk |].
  apply inverse_eval; try assumption; lia.
Qed.

End AnyField.

(** ** Exceptions and traces of the queries, on any object *)

Section Traces.
Variable gf : GaloisField.
Variable P : event -> Prop.

Lemma Forall_trace_bind {A B} (c : Py A) (k : A -> Py B) :
  Forall P (trace_of c) -> (forall v, Forall P (trace_of (k v))) ->
  Forall P (trace_of (bind c k)).
Proof.
  intros Hc Hk. rewrite trace_of_bind.
  destruct (result_of c) as [v | e |]; try exact Hc.
  apply Forall_app. split; [exact Hc | apply Hk].
Qed.

Lemma Forall_trace_py_mod (a n : Z) : Forall P (trace_of (py_mod a n)).
Proof. unfold py_mod. destruct (n =? 0); constructor. Qed.

End Traces.

Lemma getitem_reads (t : table) (l : list Z) (i : Z) :
  Forall (fun ev => is_read ev = true) (trace_of (getitem t l i)).
Proof. rewrite getitem_trace. repeat constructor. Qed.

Lemma multiply_reads (gf : GaloisField) (a b : Z) :
  Forall (fun ev => is_read ev = true) (trace_of (multiply gf a b)).
Proof.
  unfold multiply. destruct ((a =? 0) || (b =? 0)); [constructor |].
  repeat (apply Forall_trace_bind; [first [apply getitem_reads | apply Forall_trace_py_mod] | intros ?]).
  apply getitem_reads.
Qed.

Lemma divide_reads (gf : GaloisField) (a b : Z) :
  Forall (fun ev => is_read ev = true) (trace_of (divide gf a b)).
Proof.
  unfold divide. destruct (b =? 0); [constructor |]. destruct (a =? 0); [constructor |].
  repeat (apply Forall_trace_bind; [first [apply getitem_reads | apply Forall_trace_py_mod] | intros ?]).
  apply getitem_reads.
Qed.

Lemma inverse_reads (gf : GaloisField) (a : Z) :
  Forall (fun ev => is_read ev = true) (trace_of (inverse gf a)).
Proof.
  unfold inverse. destruct (a =? 0); [constructor |].
  repeat (apply Forall_trace_bind; [first [apply getitem_reads | apply Forall_trace_py_mod] | intros ?]).
  apply getitem_reads.
Qed.

Lemma bind_raise_inv {A B} (c : Py A) (k : A -> Py B) (e : exn) :
  result_of (bind c k) = Raise e ->
  result_of c = Raise e \/ exists v, result_of c = Ok v /\ result_of (k v) = Raise e.
Proof.
  rewrite result_of_bind. destruct (result_of c) as [v | e' |]; try discriminate.
  - intros H. right. exists v. split; [reflexivity | exact H].
  - intros [= <-]. left. reflexivity.
Qed.

Lemma py_mod_raise (a n : Z) (e : exn) :
  result_of (py_mod a n) = Raise e -> e = ZeroDivisionError.
Proof. unfold py_mod. destruct (n =? 0); simpl; [intros [= <-]; reflexivity | discriminate]. Qed.

Lemma divide_raise (gf : GaloisField) (a b : Z) (e : exn) :
  b <> 0 -> result_of (divide gf a b) = Raise e -> lookup_error e.
Proof.
  intros Hb. unfold divide, lookup_error. destruct (Z.eqb_spec b 0); [lia |].
  destruct (a =? 0); [discriminate |]. intros H.
  apply bind_raise_inv in H as [H | (la & _ & H)]; [left; eapply getitem_raise; exact H |].
  apply bind_raise_inv in H as [H | (lb & _ & H)]; [left; eapply getitem_raise; exact H |].
  apply bind_raise_inv in H as [H | (k & _ & H)]; [right; eapply py_mod_raise; exact H |].
  left. eapply getitem_raise. exact H.
Qed.

Lemma inverse_raise (gf : GaloisField) (a : Z) (e : exn) :
  a <> 0 -> result_of (inverse gf a) = Raise e -> lookup_error e.
Proof.
  intros Ha. unfold inverse, lookup_error. destruct (Z.eqb_spec a 0); [lia |]. intros H.
  apply bind_raise_inv in H as [H | (la & _ & H)]; [left; eapply getitem_raise; exact H |].
  apply bind_raise_inv in H as [H | (k & _ & H)]; [right; eapply py_mod_raise; exact H |].
  left. eapply getitem_raise. exact H.
Qed.

(** A zero operand takes the early [return 0] of [multiply]. *)
Lemma multiply_zero (gf : GaloisField) (a b : Z) :
  a = 0 \/ b = 0 -> multiply gf a b = ([], Ok 0).
Proof.
  intros H. unfold multiply.
  assert (Hc : (a =? 0) || (b =? 0) = true).
  { destruct H as [-> | ->]; [reflexivity | apply orb_true_r]. }
  rewrite Hc. reflexivity.
Qed.

(** C5: on a constructed field, [divide(a, b)] raises the
    division-by-zero error if and only if [b == 0]: [divide(a, 0)]
    raises it for every [a], zero included, and for every element [a]
    and nonzero element [b] the call returns a value. *)
Theorem divide_raises_iff_zero_divisor (p mm : Z) (gf : GaloisField) :
  result_of (__init__ p mm) = Ok gf ->
  (forall a, result_of (divide gf a 0) = Raise (ValueError "Division by zero")) /\
  (forall a b, 0 <= a < field_size gf -> 0 < b < field_size gf ->
     exists v, result_of (divide gf a b) = Ok v) /\
  (forall a b, result_of (divide gf a b) = Raise (ValueError "Division by zero") ->
     b = 0).
Proof.
  intros Hgf. split; [| split].
  - intros a. reflexivity.
  - intros a b Ha Hb. destruct (Z.eq_dec a 0) as [-> | Hna].
    + exists 0. unfold divide. destruct (Z.eqb_spec b 0); [lia | reflexivity].
    + destruct (af_divide p mm gf Hgf a b) as (k & v & _ & Hd); [lia | lia |].
      exists v. rewrite Hd. reflexivity.
  - intros a b H. destruct (Z.eq_dec b 0) as [Hb | Hb]; [exact Hb |].
    destruct (divide_raise gf a b _ Hb H); discriminate.
Qed.

Lemma divide_raises_iff_zero_divisor_witness :
  (forall a, result_of (divide gf16_field a 0) = Raise (ValueError "Division by zero")) /\
  (forall a b, 0 <= a < field_size gf16_field -> 0 < b < field_size gf16_field ->
     exists v, result_of (divide gf16_field a b) = Ok v) /\
  (forall a b, result_of (divide gf16_field a b) = Raise (ValueError "Division by zero") ->
     b = 0).
Proof.
  apply (divide_raises_iff_zero_divisor 19 4 gf16_field).
  vm_compute. reflexivity.
Defined.

(** C6: on a constructed field, [inverse(a)] raises the zero-inverse
    error if and only if [a == 0]: [inverse(0)] raises it, and for every
    nonzero element [a] the call returns a value. *)
Theorem inverse_raises_iff_zero (p mm : Z) (gf : GaloisField) :
  result_of (__init__ p mm) = Ok gf ->
  result_of (inverse gf 0) = Raise (ValueError "Zero has no multiplicative inverse") /\
  (forall a, 0 < a < field_size gf -> exists v, result_of (inverse gf a) = Ok v) /\
  (forall a, result_of (inverse gf a)
             = Raise (ValueError "Zero has no multiplicative inverse") -> a = 0).
Proof.
  intros Hgf. split; [| split].
  - reflexivity.
  - intros a Ha. destruct (af_inverse p mm gf Hgf a Ha) as (k & v & _ & Hi).
    exists v. rewrite Hi. reflexivity.
  - intros a H. destruct (Z.eq_dec a 0) as [Ha | Ha]; [exact Ha |].
    destruct (inverse_raise gf a _ Ha H); discriminate.
Qed.

Lemma inverse_raises_iff_zero_witness :
  result_of (inverse gf16_field 0)
  = Raise (ValueError "Zero has no multiplicative inverse") /\
  (forall a, 0 < a < field_size gf16_field ->
     exists v, result_of (inverse gf16_field a) = Ok v) /\
  (forall a, result_of (inverse gf16_field a)
             = Raise (ValueError "Zero has no multiplicative inverse") -> a = 0).
Proof.
  apply (inverse_raises_iff_zero 19 4 gf16_field).
  vm_compute. reflexivity.
Defined.

(** C7: for all [a] and [b], if [a == 0] or [b == 0] then
    [multiply(a, b)] returns 0, and it does so before any table lookup:
    the call reads no table. *)
Theorem multiply_zero_short_circuit (gf : GaloisField) (a b : Z) :
  a = 0 \/ b = 0 ->
  result_of (multiply gf a b) = Ok 0 /\ trace_of (multiply gf a b) = [].
Proof.
  intros H. rewrite (multiply_zero gf a b H). split; reflexivity.
Qed.

Lemma multiply_zero_short_circuit_witness :
  result_of (multiply gf16_field 0 7) = Ok 0 /\
  trace_of (multiply gf16_field 0 7) = [].
Proof.
  apply (multiply_zero_short_circuit gf16_field 0 7).
  left. reflexivity.
Defined.

(** C8: after construction, whatever the arguments of the constructor,
    [exp_table[i] == exp_table[i + field_size - 1]] for every [i] in
    [[0, field_size - 1)]; and it stays so, since no query writes to a
    table: the queries only read. *)
Theorem exp_table_duplicated (p mm : Z) (gf : GaloisField) :
  result_of (__init__ p mm) = Ok gf ->
  (forall i, 0 <= i < field_size gf - 1 ->
     exists v, result_of (getitem ExpT (exp_table gf) i) = Ok v /\
               result_of (getitem ExpT (exp_table gf) (i + field_size gf - 1)) = Ok v) /\
  (forall a b,
     Forall (fun ev => is_read ev = true)
            (trace_of (add gf a b) ++ trace_of (subtract gf a b) ++
             trace_of (multiply gf a b) ++ trace_of (divide gf a b) ++
             trace_of (inverse gf a))).
Proof.
  intros Hgf. split.
  - intros i Hi. pose proof (init_ok_nonneg p mm gf Hgf) as Hmm.
    destruct (init_basic p mm Hmm gf Hgf) as (_ & _ & Hfs & _ & _ & _ & Hdup).
    cbn [fst] in *. destruct (Hdup (Z.to_nat i)) as (v & H1 & H2); [lia |].
    exists v. split.
    + rewrite (getitem_nonneg ExpT _ i v) by (try assumption; lia). reflexivity.
    + rewrite (getitem_nonneg ExpT _ _ v); [reflexivity | lia |].
      replace (Z.to_nat (i + field_size gf - 1))
        with (Z.to_nat i + Z.to_nat (2 ^ mm - 1))%nat by lia.
      exact H2.
  - intros a b. repeat (apply Forall_app; split).
    + constructor.
    + constructor.
    + apply multiply_reads.
    + apply divide_reads.
    + apply inverse_reads.
Qed.

Lemma exp_table_duplicated_witness :
  (forall i, 0 <= i < field_size gf16_field - 1 ->
     exists v, result_of (getitem ExpT (exp_table gf16_field) i) = Ok v /\
               result_of (getitem ExpT (exp_table gf16_field)
                                  (i + field_size gf16_field - 1)) = Ok v) /\
  (forall a b,
     Forall (fun ev => is_read ev = true)
            (trace_of (add gf16_field a b) ++ trace_of (subtract gf16_field a b) ++
             trace_of (multiply gf16_field a b) ++ trace_of (divide gf16_field a b) ++
             trace_of (inverse gf16_field a))).
Proof.
  apply (exp_table_duplicated 19 4 gf16_field).
  vm_compute. reflexivity.
Defined.

(** C10: on a constructed field, for elements [a] and [b], every table
    access of [multiply(a, b)], of [divide(a, b)] when [b != 0] and of
    [inverse(a)] when [a != 0] is in bounds: the log table is read only
    at nonzero elements, never at 0, the exponent table only at
    positions in [[0, field_size - 1)], never in its second half, and
    the calls return. *)
Theorem query_accesses_in_bounds (p mm : Z) (gf : GaloisField) (a b : Z) :
  result_of (__init__ p mm) = Ok gf ->
  0 <= a < field_size gf -> 0 <= b < field_size gf ->
  Z.of_nat (length (log_table gf)) = field_size gf /\
  Z.of_nat (length (exp_table gf)) = 2 * field_size gf /\
  (Forall (access_ok gf) (trace_of (multiply gf a b)) /\
   exists v, result_of (multiply gf a b) = Ok v) /\
  (b <> 0 -> Forall (access_ok gf) (trace_of (divide gf a b)) /\
             exists v, result_of (divide gf a b) = Ok v) /\
  (a <> 0 -> Forall (access_ok gf) (trace_of (inverse gf a)) /\
             exists v, result_of (inverse gf a) = Ok v).
Proof.
  intros Hgf Ha Hb.
  destruct (init_shape p mm gf Hgf) as (_ & _ & _ & Hle & Hll).
  split; [exact Hll |]. split; [exact Hle |]. split; [| split].
  - destruct (Z.eq_dec a 0) as [Ha0 | Ha0]; [| destruct (Z.eq_dec b 0) as [Hb0 | Hb0]].
    + rewrite (multiply_zero gf a b (or_introl Ha0)).
      split; [constructor | exists 0; reflexivity].
    + rewrite (multiply_zero gf a b (or_intror Hb0)).
      split; [constructor | exists 0; reflexivity].
    + destruct (af_multiply p mm gf Hgf a b) as (k & v & Hk & Hm); [lia | lia |].
      rewrite Hm. split; [| exists v; reflexivity].
      repeat constructor; simpl; lia.
  - intros Hb0. destruct (Z.eq_dec a 0) as [-> | Ha0].
    + unfold divide. destruct (Z.eqb_spec b 0); [lia |].
      split; [constructor | exists 0; reflexivity].
    + destruct (af_divide p mm gf Hgf a b) as (k & v & Hk & Hd); [lia | lia |].
      rewrite Hd. split; [| exists v; reflexivity].
      repeat constructor; simpl; lia.
  - intros Ha0. destruct (af_inverse p mm gf Hgf a) as (k & v & Hk & Hi); [lia |].
    rewrite Hi. split; [| exists v; reflexivity].
    repeat constructor; simpl; lia.
Qed.

Lemma query_accesses_in_bounds_witness :
  Z.of_nat (length (log_table gf16_field)) = field_size gf16_field /\
  Z.of_nat (length (exp_table gf16_field)) = 2 * field_size gf16_field /\
  (Forall (access_ok gf16_field) (trace_of (multiply gf16_field 11 13)) /\
   exists v, result_of (multiply gf16_field 11 13) = Ok v) /\
  (13 <> 0 -> Forall (access_ok gf16_field) (trace_of (divide gf16_field 11 13)) /\
              exists v, result_of (divide gf16_field 11 13) = Ok v) /\
  (11 <> 0 -> Forall (access_ok gf16_field) (trace_of (inverse gf16_field 11)) /\
              exists v, result_of (inverse gf16_field 11) = Ok v).
Proof.
  apply (query_accesses_in_bounds 19 4 gf16_field 11 13).
  - vm_compute. reflexivity.
  - simpl. lia.
  - simpl. lia.
Defined.

(** C9: for the field built with [m = 4] and [primitive_poly = 0b10011],
    the construction loop assigns [log_table[x] = i] once for each
    nonzero element [x], with [i] running through the exponents 0 to 14;
    the log table maps the nonzero elements [[1, 16)] one-to-one onto
    the exponents [[0, 15)], the exponent table being the inverse map. *)
Theorem gf16_log_table_bijection :
  result_of gf16 = Ok gf16_field /\
  map snd (log_writes (trace_of gf16)) = range 15 /\
  List.NoDup (map fst (log_writes (trace_of gf16))) /\
  (forall x, In x (map fst (log_writes (trace_of gf16))) <-> 1 <= x < 16) /\
  (forall x i, In (x, i) (log_writes (trace_of gf16)) ->
     result_of (getitem LogT (log_table gf16_field) x) = Ok i) /\
  (forall x, 1 <= x < 16 ->
     exists i, 0 <= i < 15 /\
       result_of (getitem LogT (log_table gf16_field) x) = Ok i /\
       result_of (getitem ExpT (exp_table gf16_field) i) = Ok x) /\
  (forall i, 0 <= i < 15 ->
     exists x, 1 <= x < 16 /\
       result_of (getitem ExpT (exp_table gf16_field) i) = Ok x /\
       result_of (getitem LogT (log_table gf16_field) x) = Ok i) /\
  (forall x y, 1 <= x < 16 -> 1 <= y < 16 ->
     result_of (getitem LogT (log_table gf16_field) x)
     = result_of (getitem LogT (log_table gf16_field) y) -> x = y).
Proof.
  assert (Hws : log_writes (trace_of gf16) =
                [(1, 0); (2, 1); (4, 2); (8, 3); (3, 4); (6, 5); (12, 6); (11, 7);
                 (5, 8); (10, 9); (7, 10); (14, 11); (15, 12); (13, 13); (9, 14)])
    by (vm_compute; reflexivity).
  assert (Hfwd : forall x, 1 <= x < 16 ->
     exists i, 0 <= i < 15 /\
       result_of (getitem LogT (log_table gf16_field) x) = Ok i /\
       result_of (getitem ExpT (exp_table gf16_field) i) = Ok x).
  { intros x Hx.
    assert (Hcases : x = 1 \/ x = 2 \/ x = 3 \/ x = 4 \/ x = 5 \/ x = 6 \/ x = 7 \/
                     x = 8 \/ x = 9 \/ x = 10 \/ x = 11 \/ x = 12 \/ x = 13 \/
                     x = 14 \/ x = 15) by lia.
    repeat (destruct Hcases as [-> | Hcases]); try subst x;
      eexists; (split; [| split; vm_compute; reflexivity]); lia. }
  rewrite Hws. split; [apply gf16_built |]. split; [reflexivity |].
  split; [| split; [| split; [| split; [exact Hfwd | split]]]].
  - repeat constructor; simpl; intuition discriminate.
  - intros x. simpl. split; [intuition lia | intros Hx].
    assert (Hcases : x = 1 \/ x = 2 \/ x = 3 \/ x = 4 \/ x = 5 \/ x = 6 \/ x = 7 \/
                     x = 8 \/ x = 9 \/ x = 10 \/ x = 11 \/ x = 12 \/ x = 13 \/
                     x = 14 \/ x = 15) by lia.
    intuition (subst; tauto).
  - intros x i Hin. simpl in Hin.
    repeat (destruct Hin as [[= <- <-] | Hin]; [vm_compute; reflexivity |]).
    contradiction.
  - intros i Hi.
    assert (Hcases : i = 0 \/ i = 1 \/ i = 2 \/ i = 3 \/ i = 4 \/ i = 5 \/ i = 6 \/
                     i = 7 \/ i = 8 \/ i = 9 \/ i = 10 \/ i = 11 \/ i = 12 \/
                     i = 13 \/ i = 14) by lia.
    repeat (destruct Hcases as [-> | Hcases]); try subst i;
      eexists; (split; [| split; vm_compute; reflexivity]); lia.
  - intros x y Hx Hy Heq.
    destruct (Hfwd x Hx) as (i & _ & Hlx & Hex).
    destruct (Hfwd y Hy) as (j & _ & Hly & Hey).
    rewrite Hlx, Hly in Heq. injection Heq as ->. rewrite Hex in Hey.
    injection Hey as ->. reflexivity.
Qed.

(** * Further properties of the code *)

(** ** Outcomes of a loop *)

Section ForLoopOutcome.
Context {S : Type}.
Variable body : Z -> S -> Py S.
Variable I : nat -> S -> Prop.
Variable E : exn -> Prop.


End ForLoopOutcome.

(** ** The constructor on arbitrary arguments *)


(** X2: whenever the constructor returns, the object stores its two
    arguments, [field_size] is [2^m], [mask] is [field_size - 1], the
    exponent table has [2 * field_size] entries and the log table
    [field_size] entries. *)
Theorem constructor_shape (p mm : Z) (gf : GaloisField) :
  result_of (__init__ p mm) = Ok gf ->
  0 <= mm /\ m gf = mm /\ primitive_poly gf = p /\
  field_size gf = 2 ^ mm /\ mask gf = field_size gf - 1 /\
  Z.of_nat (length (exp_table gf)) = 2 * field_size gf /\
  Z.of_nat (length (log_table gf)) = field_size gf.
Proof.
  intros Hgf. pose proof (init_ok_nonneg p mm gf Hgf) as Hmm.
  destruct (init_basic p mm Hmm gf Hgf) as (Hm & Hp & Hfs & Hmask & Hle & Hll & _).
  cbn [fst] in *. pose proof (pow_pos mm Hmm).
  rewrite Hfs, Hmask, Hle, Hll. repeat split; try assumption; lia.
Qed.

Lemma constructor_shape_witness :
  0 <= 4 /\ m gf16_field = 4 /\ primitive_poly gf16_field = 19 /\
  field_size gf16_field = 2 ^ 4 /\ mask gf16_field = field_size gf16_field - 1 /\
  Z.of_nat (length (exp_table gf16_field)) = 2 * field_size gf16_field /\
  Z.of_nat (length (log_table gf16_field)) = field_size gf16_field.
Proof.
  apply (constructor_shape 19 4 gf16_field). vm_compute. reflexivity.
Defined.

Lemma xpow_range_deg (p mm : Z) (k : nat) :
  0 < mm -> 2 ^ mm <= p < 2 ^ (mm + 1) ->
  0 <= xpow (2 ^ mm) p k < 2 ^ mm.
Proof.
  intros Hmm Hp.
  assert (H2 : 2 <= 2 ^ mm).
  { change 2 with (2 ^ 1) at 1. apply Z.pow_le_mono_r; lia. }
  induction k as [| k IH].
  - simpl. lia.
  - change (xpow (2 ^ mm) p (S k)) with (xtime (2 ^ mm) p (xpow (2 ^ mm) p k)).
    apply (xtime_range mm); [lia | reflexivity | exact Hp | exact IH].
Qed.

(** Construction from a polynomial of degree [mm]. *)
Lemma init_degree_m (p mm : Z) :
  0 <= mm -> 2 ^ mm <= p < 2 ^ (mm + 1) ->
  exists gf, result_of (__init__ p mm) = Ok gf /\
    forall i, 0 <= i < field_size gf - 1 ->
      result_of (getitem ExpT (exp_table gf) i) = Ok (xpow (2 ^ mm) p (Z.to_nat i)) /\
      0 <= xpow (2 ^ mm) p (Z.to_nat i) < field_size gf.
Proof.
  intros Hmm Hp. pose proof (pow_pos mm Hmm) as Hpos.
  set (N := Z.to_nat (2 ^ mm - 1)).
  set (I := fun (k : nat) (st : GaloisField * Z) =>
              basic_inv p mm k st /\ snd st = xpow (2 ^ mm) p k /\
              forall j, (j < k)%nat ->
                exp_table (fst st) !! j = Some (xpow (2 ^ mm) p j)).
  destruct (for_loop_seq_total init_body I 0 N (self0 p mm, 1)) as (st & Hres & Hinv).
  - split; [apply basic_inv_0; exact Hmm | split; [reflexivity |]]. intros j Hj. lia.
  - intros k [self x] Hk (Hbasic & Hx & Hexp). cbn [fst snd] in *. subst x.
    pose proof Hbasic as (_ & Hpp & Hfs & _ & Hle & Hll & _). cbn [fst] in *.
    assert (Hm1 : 0 < mm).
    { destruct (Z.eq_dec mm 0) as [-> | ?]; [| lia]. unfold N in Hk. simpl in Hk. lia. }
    pose proof (xpow_range_deg p mm k Hm1 Hp) as Hr.
    assert (Hbody := init_body_result k self (xpow (2 ^ mm) p k)).
    rewrite py_index_nonneg in Hbody by (rewrite Hll; lia).
    eexists. split; [apply Hbody; rewrite ?Hfs, ?Hle; unfold N in Hk; lia |].
    split; [| split].
    + eapply basic_inv_step; [exact Hmm | unfold N in Hk; lia | exact Hbasic |].
      rewrite Hbody by (rewrite ?Hfs, ?Hle; unfold N in Hk; lia). reflexivity.
    + cbn [snd]. rewrite Hfs, Hpp. reflexivity.
    + cbn [fst set_log_table set_exp_table exp_table]. intros j Hj.
      rewrite list_lookup_insert_ne by (rewrite Hfs; unfold N in Hk; lia).
      destruct (Nat.eq_dec j k) as [-> | Hne].
      * apply list_lookup_insert_eq. rewrite Hle. unfold N in Hk. lia.
      * rewrite list_lookup_insert_ne by lia. apply Hexp. lia.
  - exists (fst st). split.
    + rewrite init_result. destruct (Z.ltb_spec mm 0); [lia |].
      unfold range. fold N. rewrite Hres. reflexivity.
    + destruct Hinv as ((_ & _ & Hfs & _) & _ & Hexp). cbn [fst] in *.
      intros i Hi. rewrite Hfs in *.
      assert (Hm1 : 0 < mm).
      { destruct (Z.eq_dec mm 0) as [-> | ?]; [| lia]. simpl in Hi. lia. }
      split; [| apply xpow_range_deg; assumption].
      rewrite (getitem_nonneg ExpT _ i (xpow (2 ^ mm) p (Z.to_nat i))); [reflexivity | lia |].
      apply Hexp. unfold N. lia.
Qed.



(** X4: whenever the constructor returns, the last two entries of the
    exponent table, at positions [2 * field_size - 2] and
    [2 * field_size - 1], still hold their initial 0: the loop writes
    below them only. *)
Theorem constructor_tail_untouched (p mm : Z) (gf : GaloisField) :
  result_of (__init__ p mm) = Ok gf ->
  result_of (getitem ExpT (exp_table gf) (2 * field_size gf - 2)) = Ok 0 /\
  result_of (getitem ExpT (exp_table gf) (2 * field_size gf - 1)) = Ok 0.
Proof.
  intros Hgf. pose proof (init_ok_nonneg p mm gf Hgf) as Hmm.
  pose proof (pow_pos mm Hmm) as Hpos.
  set (I := fun (k : nat) (st : GaloisField * Z) =>
              basic_inv p mm k st /\
              exp_table (fst st) !! Z.to_nat (2 * 2 ^ mm - 2) = Some 0 /\
              exp_table (fst st) !! Z.to_nat (2 * 2 ^ mm - 1) = Some 0).
  assert (Hinv : I (Z.to_nat (2 ^ mm - 1)) (gf, 0)).
  { revert Hgf. rewrite init_result. destruct (Z.ltb_spec mm 0) as [? | _]; [lia |].
    destruct (result_of (for_loop _ _ _)) as [st | e |] eqn:Hloop; try discriminate.
    intros [= <-].
    apply (for_loop_seq_inv init_body I 0 (Z.to_nat (2 ^ mm - 1))) in Hloop.
    - exact Hloop.
    - split; [apply basic_inv_0; exact Hmm |].
      cbn [fst self0 exp_table]. split; apply lookup_replicate_2; lia.
    - intros k [self x] s1 Hk (Hbasic & H1 & H2) Hres.
      split; [eapply basic_inv_step; [exact Hmm | | exact Hbasic | exact Hres]; lia |].
      pose proof Hbasic as (_ & _ & Hfs & _ & Hle & _). cbn [fst] in *.
      rewrite init_body_result in Hres by lia.
      destruct (py_index (length (log_table self)) x); [| discriminate].
      injection Hres as <-. cbn [fst set_log_table set_exp_table exp_table].
      rewrite !list_lookup_insert_ne by lia. split; assumption. }
  destruct Hinv as ((_ & _ & Hfs & _) & H1 & H2). cbn [fst] in *. rewrite Hfs.
  split.
  - rewrite (getitem_nonneg ExpT _ _ 0); [reflexivity | lia | exact H1].
  - rewrite (getitem_nonneg ExpT _ _ 0); [reflexivity | lia | exact H2].
Qed.

Lemma constructor_tail_untouched_witness :
  result_of (getitem ExpT (exp_table gf16_field) (2 * field_size gf16_field - 2)) = Ok 0 /\
  result_of (getitem ExpT (exp_table gf16_field) (2 * field_size gf16_field - 1)) = Ok 0.
Proof.
  apply (constructor_tail_untouched 19 4 gf16_field). vm_compute. reflexivity.
Defined.

(** X5: in a field built from a primitive polynomial the two tables are
    inverse to each other: [exp_table[0]] is 1, every nonzero element
    [a] has a logarithm [i] in [[0, field_size - 1)] with
    [exp_table[i] == a], and every such exponent [i] indexes a nonzero
    element whose logarithm is [i]. *)
Theorem tables_round_trip (p mm : Z) (gf : GaloisField) :
  is_primitive p mm = true ->
  result_of (__init__ p mm) = Ok gf ->
  result_of (getitem ExpT (exp_table gf) 0) = Ok 1 /\
  (forall a, 0 < a < field_size gf ->
     exists i, 0 <= i < field_size gf - 1 /\
       result_of (getitem LogT (log_table gf) a) = Ok i /\
       result_of (getitem ExpT (exp_table gf) i) = Ok a) /\
  (forall i, 0 <= i < field_size gf - 1 ->
     exists a, 0 < a < field_size gf /\
       result_of (getitem ExpT (exp_table gf) i) = Ok a /\
       result_of (getitem LogT (log_table gf) a) = Ok i).
Proof.
  intros Hprim Hgf.
  destruct (pf_field_size p mm gf Hprim Hgf) as (Hfs & Hfs2 & HN).
  rewrite Hfs. split; [| split].
  - rewrite (getitem_nonneg ExpT _ 0 1); [reflexivity | lia |].
    apply (pf_exp p mm gf Hprim Hgf 0). lia.
  - intros a Ha. destruct (pf_log p mm gf Hprim Hgf a Ha) as (i & Hi & Hpow & Hlog).
    exists i. split; [exact Hi |]. split.
    + rewrite (getitem_nonneg LogT _ a i); [reflexivity | lia | exact Hlog].
    + rewrite (getitem_nonneg ExpT _ i a); [reflexivity | lia |].
      rewrite Hpow. apply (pf_exp p mm gf Hprim Hgf i Hi).
  - intros i Hi. destruct (pf_pow p mm gf Hprim Hgf i Hi) as [Hr Hlog].
    exists (xpow (2 ^ mm) p (Z.to_nat i)). split; [exact Hr |]. split.
    + rewrite (getitem_nonneg ExpT _ i (xpow (2 ^ mm) p (Z.to_nat i)));
        [reflexivity | lia | apply (pf_exp p mm gf Hprim Hgf i Hi)].
    + rewrite (getitem_nonneg LogT _ _ i); [reflexivity | lia | exact Hlog].
Qed.

Lemma tables_round_trip_witness :
  result_of (getitem ExpT (exp_table gf16_field) 0) = Ok 1 /\
  (forall a, 0 < a < field_size gf16_field ->
     exists i, 0 <= i < field_size gf16_field - 1 /\
       result_of (getitem LogT (log_table gf16_field) a) = Ok i /\
       result_of (getitem ExpT (exp_table gf16_field) i) = Ok a) /\
  (forall i, 0 <= i < field_size gf16_field - 1 ->
     exists a, 0 < a < field_size gf16_field /\
       result_of (getitem ExpT (exp_table gf16_field) i) = Ok a /\
       result_of (getitem LogT (log_table gf16_field) a) = Ok i).
Proof.
  apply (tables_round_trip 19 4 gf16_field); vm_compute; reflexivity.
Defined.

(** What the proofs below need of a constructed object. *)
Lemma constructor_shape_aux (p mm : Z) (gf : GaloisField) :
  result_of (__init__ p mm) = Ok gf ->
  0 <= mm /\ primitive_poly gf = p /\ field_size gf = 2 ^ mm.
Proof.
  intros Hgf. pose proof (init_ok_nonneg p mm gf Hgf) as Hmm.
  destruct (init_basic p mm Hmm gf Hgf) as (_ & Hp & Hfs & _).
  cbn [fst] in *. repeat split; assumption.
Qed.

(** ** The raw multiplication routine *)

(** X6: [_multiply_without_tables(a, b)] returns for every [b >= 0], on
    any object and any [a], and its [while] loop never exits when
    [b < 0]. *)
Theorem raw_terminates_iff_nonneg (self : GaloisField) (a b : Z) :
  (0 <= b ->
   exists v, _multiply_without_tables self a b = Some v /\
     forall fuel, (mul_fuel b <= fuel)%nat -> mul_loop fuel self (a, b, 0) = Some v) /\
  (b < 0 -> forall fuel, mul_loop fuel self (a, b, 0) = None).
Proof.
  split.
  - intros Hb. eexists. split; [apply (mwt_clmul self a b Hb) |].
    intros fuel Hf. rewrite (mwt_fuel_independent self a b fuel Hb Hf).
    apply (mwt_clmul self a b Hb).
  - intros Hb fuel. apply mul_loop_diverges. exact Hb.
Qed.

(** X7: on any object, the raw product of [a] by 0 is 0 and by 1 is [a],
    and the raw product of 0 by any [b >= 0] is 0. *)
Theorem raw_zero_and_one (self : GaloisField) (a b : Z) :
  _multiply_without_tables self a 0 = Some 0 /\
  _multiply_without_tables self a 1 = Some a /\
  (0 <= b -> _multiply_without_tables self 0 b = Some 0).
Proof.
  split; [reflexivity |]. split.
  - unfold _multiply_without_tables. simpl. rewrite Z.lxor_0_l. reflexivity.
  - intros Hb. rewrite (mwt_clmul self 0 b Hb), clmul_0_l. reflexivity.
Qed.

Lemma lxor_interchange (a b c d : Z) :
  Z.lxor (Z.lxor a b) (Z.lxor c d) = Z.lxor (Z.lxor a c) (Z.lxor b d).
Proof.
  apply Z.bits_inj'. intros k _. rewrite !Z.lxor_spec.
  destruct (Z.testbit a k), (Z.testbit b k), (Z.testbit c k), (Z.testbit d k);
    reflexivity.
Qed.

Lemma clmul_lxor_l (mm fs p : Z) (n : nat) (a a' b : Z) :
  0 <= mm -> fs = 2 ^ mm ->
  clmul fs p n (Z.lxor a a') b = Z.lxor (clmul fs p n a b) (clmul fs p n a' b).
Proof.
  intros Hmm Hfs. revert a a' b. induction n as [| n IH]; intros a a' b; simpl.
  - reflexivity.
  - rewrite (xtime_lxor mm fs p Hmm Hfs), IH.
    destruct (Z.land b 1 =? 0).
    + rewrite !Z.lxor_0_l. reflexivity.
    + apply lxor_interchange.
Qed.

Lemma clmul_range (mm fs p : Z) (n : nat) (a b : Z) :
  0 <= mm -> fs = 2 ^ mm -> 2 ^ mm <= p < 2 ^ (mm + 1) ->
  0 <= a < 2 ^ mm -> 0 <= clmul fs p n a b < 2 ^ mm.
Proof.
  intros Hmm Hfs Hp. revert a b. induction n as [| n IH]; intros a b Ha; simpl.
  - pose proof (pow_pos mm Hmm). lia.
  - apply lxor_bound; [exact Hmm | |].
    + destruct (Z.land b 1 =? 0); [pose proof (pow_pos mm Hmm); lia | exact Ha].
    + apply IH. apply (xtime_range mm fs p Hmm Hfs a Hp Ha).
Qed.

(** X8: on a constructed object, whatever the polynomial, the raw
    product is additive in its first operand: for [b >= 0],
    [raw(a ^ a', b) == raw(a, b) ^ raw(a', b)]. *)
Theorem raw_additive_left (p mm : Z) (gf : GaloisField) (a a' b : Z) :
  result_of (__init__ p mm) = Ok gf -> 0 <= b ->
  exists v v', _multiply_without_tables gf a b = Some v /\
               _multiply_without_tables gf a' b = Some v' /\
               _multiply_without_tables gf (Z.lxor a a') b = Some (Z.lxor v v').
Proof.
  intros Hgf Hb. destruct (init_shape p mm gf Hgf) as (Hmm & Hfs & _).
  rewrite !(mwt_clmul gf _ b Hb). do 2 eexists.
  split; [reflexivity |]. split; [reflexivity |].
  f_equal. apply (clmul_lxor_l mm); assumption.
Qed.

Lemma raw_additive_left_witness :
  exists v v', _multiply_without_tables gf16_field 11 7 = Some v /\
               _multiply_without_tables gf16_field 13 7 = Some v' /\
               _multiply_without_tables gf16_field (Z.lxor 11 13) 7 = Some (Z.lxor v v').
Proof.
  apply (raw_additive_left 19 4 gf16_field 11 13 7); [vm_compute; reflexivity | lia].
Defined.

(** X9: on an object built from a polynomial of degree [m], the raw
    product of an element [a] by any [b >= 0] is an element: the
    reduction keeps it below [field_size]. *)
Theorem raw_product_in_range (p mm : Z) (gf : GaloisField) (a b : Z) :
  result_of (__init__ p mm) = Ok gf ->
  2 ^ mm <= p < 2 ^ (mm + 1) ->
  0 <= a < field_size gf -> 0 <= b ->
  exists v, _multiply_without_tables gf a b = Some v /\ 0 <= v < field_size gf.
Proof.
  intros Hgf Hp Ha Hb.
  destruct (constructor_shape_aux p mm gf Hgf) as (Hmm & Hpp & Hfs).
  rewrite (mwt_clmul gf a b Hb). eexists. split; [reflexivity |].
  rewrite Hpp. rewrite Hfs in *. apply (clmul_range mm); try assumption; reflexivity.
Qed.

Lemma raw_product_in_range_witness :
  exists v, _multiply_without_tables gf16_field 11 1000 = Some v /\
            0 <= v < field_size gf16_field.
Proof.
  apply (raw_product_in_range 19 4 gf16_field 11 1000);
    [vm_compute; reflexivity | simpl; lia | simpl; lia | lia].
Defined.

(** ** Field laws of the queries *)

Section PrimitiveQueries.
Variables (p mm : Z) (gf : GaloisField).
Hypothesis Hprim : is_primitive p mm = true.
Hypothesis Hgf : result_of (__init__ p mm) = Ok gf.

Lemma pq_one : 1 = xpow (2 ^ mm) p (Z.to_nat 0) /\ 0 <= 0 < 2 ^ mm - 1.
Proof.
  destruct (pf_field_size p mm gf Hprim Hgf) as (_ & Hfs2 & _).
  split; [reflexivity | lia].
Qed.

Lemma pq_mod (k : Z) : 0 <= k mod (2 ^ mm - 1) < 2 ^ mm - 1.
Proof.
  destruct (pf_field_size p mm gf Hprim Hgf) as (_ & Hfs2 & _).
  apply Z.mod_pos_bound. lia.
Qed.

(** Products, quotients and inverses of elements are elements. *)
Lemma pq_multiply_elem (a b : Z) :
  0 <= a < field_size gf -> 0 <= b < field_size gf ->
  exists v, result_of (multiply gf a b) = Ok v /\ 0 <= v < field_size gf /\
            (v = 0 <-> a = 0 \/ b = 0).
Proof.
  intros Ha Hb. destruct (pf_field_size p mm gf Hprim Hgf) as (Hfs & Hfs2 & _).
  destruct (Z.eq_dec a 0) as [Ha0 | Ha0]; [| destruct (Z.eq_dec b 0) as [Hb0 | Hb0]].
  - exists 0. rewrite (multiply_zero gf a b (or_introl Ha0)).
    split; [reflexivity |]. split; [lia | tauto].
  - exists 0. rewrite (multiply_zero gf a b (or_intror Hb0)).
    split; [reflexivity |]. split; [lia | tauto].
  - destruct (pf_log p mm gf Hprim Hgf a) as (i & Hi & -> & _); [lia |].
    destruct (pf_log p mm gf Hprim Hgf b) as (j & Hj & -> & _); [lia |].
    eexists. split; [apply (pf_multiply p mm gf Hprim Hgf); assumption |].
    destruct (pf_pow p mm gf Hprim Hgf _ (pq_mod (i + j))) as [Hr _].
    rewrite Hfs. split; [lia |]. split; [lia | intros [? | ?]; contradiction].
Qed.

Lemma pq_inverse_elem (a : Z) :
  0 < a < field_size gf ->
  exists v, result_of (inverse gf a) = Ok v /\ 0 < v < field_size gf.
Proof.
  intros Ha. destruct (pf_field_size p mm gf Hprim Hgf) as (Hfs & Hfs2 & _).
  destruct (pf_log p mm gf Hprim Hgf a) as (i & Hi & -> & _); [lia |].
  eexists. split; [apply (pf_inverse p mm gf Hprim Hgf); assumption |].
  rewrite Hfs. apply (pf_pow p mm gf Hprim Hgf _ (pq_mod (- i))).
Qed.

(** The raw routine on two powers of [x]. *)
Lemma pq_raw_pow (i j : Z) :
  0 <= i < 2 ^ mm - 1 -> 0 <= j < 2 ^ mm - 1 ->
  _multiply_without_tables gf (xpow (2 ^ mm) p (Z.to_nat i)) (xpow (2 ^ mm) p (Z.to_nat j))
  = Some (xpow (2 ^ mm) p (Z.to_nat ((i + j) mod (2 ^ mm - 1)))).
Proof.
  intros Hi Hj. destruct (pf_pow p mm gf Hprim Hgf j Hj) as [Hr _].
  rewrite (pf_raw p mm gf Hprim Hgf) by lia.
  rewrite <- (xpow_add p mm). f_equal.
  apply (xpow_mod p mm gf Hprim Hgf); assumption.
Qed.

(** The table-driven product is the raw product. *)
Lemma pq_multiply_raw (a b : Z) :
  0 <= a < field_size gf -> 0 <= b < field_size gf ->
  exists v, _multiply_without_tables gf a b = Some v /\
            result_of (multiply gf a b) = Ok v.
Proof.
  intros Ha Hb. destruct (pf_field_size p mm gf Hprim Hgf) as (Hfs & Hfs2 & _).
  destruct (Z.eq_dec a 0) as [-> | Ha0]; [| destruct (Z.eq_dec b 0) as [-> | Hb0]].
  - exists 0. split; [| reflexivity].
    rewrite mwt_clmul by lia. rewrite clmul_0_l. reflexivity.
  - exists 0. split; [reflexivity |].
    rewrite (multiply_zero gf a 0 (or_intror eq_refl)). reflexivity.
  - destruct (pf_log p mm gf Hprim Hgf a) as (i & Hi & -> & _); [lia |].
    destruct (pf_log p mm gf Hprim Hgf b) as (j & Hj & -> & _); [lia |].
    eexists. split; [apply pq_raw_pow; assumption |].
    apply (pf_multiply p mm gf Hprim Hgf); assumption.
Qed.

End PrimitiveQueries.

(** [multiply] gives the same result with its operands exchanged, on any
    object: the two logarithms are added, and a failed lookup is an
    [IndexError] on either side. *)
Lemma multiply_comm_result (gf : GaloisField) (a b : Z) :
  result_of (multiply gf a b) = result_of (multiply gf b a).
Proof.
  unfold multiply. rewrite (orb_comm (b =? 0)).
  destruct ((a =? 0) || (b =? 0)); [reflexivity |].
  rewrite !result_of_bind.
  destruct (result_of (getitem LogT (log_table gf) a)) as [la | e |] eqn:Ha;
    destruct (result_of (getitem LogT (log_table gf) b)) as [lb | e' |] eqn:Hb;
    rewrite ?result_of_bind, ?Ha, ?Hb; try reflexivity;
    try (exfalso; eapply getitem_no_diverge; eassumption).
  - rewrite !result_of_bind, (Z.add_comm lb la). reflexivity.
  - apply getitem_raise in Ha, Hb. subst. reflexivity.
Qed.

(** X10: in a field built from a primitive polynomial the raw routine,
    which treats its operands differently, is commutative on elements. *)
Theorem raw_commutes (p mm : Z) (gf : GaloisField) (a b : Z) :
  is_primitive p mm = true ->
  result_of (__init__ p mm) = Ok gf ->
  0 <= a < field_size gf -> 0 <= b < field_size gf ->
  _multiply_without_tables gf a b = _multiply_without_tables gf b a.
Proof.
  intros Hprim Hgf Ha Hb.
  destruct (pq_multiply_raw p mm gf Hprim Hgf a b Ha Hb) as (v & Hr & Hm).
  destruct (pq_multiply_raw p mm gf Hprim Hgf b a Hb Ha) as (v' & Hr' & Hm').
  rewrite multiply_comm_result, Hm' in Hm. injection Hm as ->.
  rewrite Hr, Hr'. reflexivity.
Qed.

Lemma raw_commutes_witness :
  _multiply_without_tables gf16_field 11 13 = _multiply_without_tables gf16_field 13 11.
Proof.
  apply (raw_commutes 19 4 gf16_field 11 13);
    [vm_compute; reflexivity | vm_compute; reflexivity | simpl; lia | simpl; lia].
Defined.

(** X11: on a constructed object the sum and the difference of two
    elements are the same element, computed without any table access. *)
Theorem add_closed (p mm : Z) (gf : GaloisField) (a b : Z) :
  result_of (__init__ p mm) = Ok gf ->
  0 <= a < field_size gf -> 0 <= b < field_size gf ->
  exists v, add gf a b = ([], Ok v) /\ subtract gf a b = ([], Ok v) /\
            0 <= v < field_size gf.
Proof.
  intros Hgf Ha Hb. destruct (constructor_shape_aux p mm gf Hgf) as (Hmm & _ & Hfs).
  exists (Z.lxor a b). split; [reflexivity |]. split; [reflexivity |].
  rewrite Hfs in *. apply lxor_bound; assumption.
Qed.

Lemma add_closed_witness :
  exists v, add gf16_field 11 13 = ([], Ok v) /\ subtract gf16_field 11 13 = ([], Ok v) /\
            0 <= v < field_size gf16_field.
Proof.
  apply (add_closed 19 4 gf16_field 11 13);
    [vm_compute; reflexivity | simpl; lia | simpl; lia].
Defined.

(** X12: on any object and for all integers, subtracting [b] from
    [add(a, b)] gives back [a], adding [a] to itself gives 0 and adding
    0 changes nothing. *)
Theorem subtract_undoes_add (gf : GaloisField) (a b : Z) :
  result_of (s <- add gf a b ;; subtract gf s b) = Ok a /\
  result_of (add gf a a) = Ok 0 /\
  result_of (add gf a 0) = Ok a.
Proof.
  split; [| split]; cbn.
  - rewrite Z.lxor_assoc, Z.lxor_nilpotent, Z.lxor_0_r. reflexivity.
  - rewrite Z.lxor_nilpotent. reflexivity.
  - rewrite Z.lxor_0_r. reflexivity.
Qed.

(** X13: on any object and for all integers, [multiply(a, b)] and
    [multiply(b, a)] have the same outcome, value or exception. *)
Theorem multiply_commutes (gf : GaloisField) (a b : Z) :
  result_of (multiply gf a b) = result_of (multiply gf b a).
Proof. apply multiply_comm_result. Qed.

(** X14: in a field built from a primitive polynomial the product of two
    elements is an element, and it is 0 only if an operand is 0. *)
Theorem multiply_closed (p mm : Z) (gf : GaloisField) (a b : Z) :
  is_primitive p mm = true ->
  result_of (__init__ p mm) = Ok gf ->
  0 <= a < field_size gf -> 0 <= b < field_size gf ->
  exists v, result_of (multiply gf a b) = Ok v /\ 0 <= v < field_size gf /\
            (v = 0 <-> a = 0 \/ b = 0).
Proof. intros Hprim Hgf. apply (pq_multiply_elem p mm gf Hprim Hgf). Qed.

Lemma multiply_closed_witness :
  exists v, result_of (multiply gf16_field 11 13) = Ok v /\
            0 <= v < field_size gf16_field /\ (v = 0 <-> 11 = 0 \/ 13 = 0).
Proof.
  apply (multiply_closed 19 4 gf16_field 11 13);
    [vm_compute; reflexivity | vm_compute; reflexivity | simpl; lia | simpl; lia].
Defined.

(** X15: in a field built from a primitive polynomial, 1 is neutral for
    [multiply] on both sides. *)
Theorem multiply_identity (p mm : Z) (gf : GaloisField) (a : Z) :
  is_primitive p mm = true ->
  result_of (__init__ p mm) = Ok gf ->
  0 <= a < field_size gf ->
  result_of (multiply gf a 1) = Ok a /\ result_of (multiply gf 1 a) = Ok a.
Proof.
  intros Hprim Hgf Ha.
  assert (H1 : result_of (multiply gf a 1) = Ok a).
  { destruct (Z.eq_dec a 0) as [-> | Ha0]; [reflexivity |].
    destruct (pf_field_size p mm gf Hprim Hgf) as (Hfs & Hfs2 & _).
    destruct (pf_log p mm gf Hprim Hgf a) as (i & Hi & -> & _); [lia |].
    destruct (pq_one p mm gf Hprim Hgf) as [Hone H0].
    rewrite Hone at 1. rewrite (pf_multiply p mm gf Hprim Hgf) by assumption.
    rewrite Z.add_0_r, Z.mod_small by lia. reflexivity. }
  split; [exact H1 | rewrite multiply_comm_result; exact H1].
Qed.

Lemma multiply_identity_witness :
  result_of (multiply gf16_field 11 1) = Ok 11 /\
  result_of (multiply gf16_field 1 11) = Ok 11.
Proof.
  apply (multiply_identity 19 4 gf16_field 11);
    [vm_compute; reflexivity | vm_compute; reflexivity | simpl; lia].
Defined.





(** X18: in a field built from a primitive polynomial, dividing by a
    nonzero element is multiplying by its inverse. *)
Theorem divide_is_multiply_by_inverse (p mm : Z) (gf : GaloisField) (a b : Z) :
  is_primitive p mm = true ->
  result_of (__init__ p mm) = Ok gf ->
  0 <= a < field_size gf -> 0 < b < field_size gf ->
  result_of (divide gf a b) = result_of (ib <- inverse gf b ;; multiply gf a ib).
Proof.
  intros Hprim Hgf Ha Hb.
  destruct (pf_field_size p mm gf Hprim Hgf) as (Hfs & Hfs2 & _).
  destruct (pq_inverse_elem p mm gf Hprim Hgf b Hb) as (ib & Hib & Hr).
  destruct (Z.eq_dec a 0) as [-> | Ha0].
  { rewrite result_of_bind, Hib, (multiply_zero gf 0 ib (or_introl eq_refl)).
    unfold divide. destruct (Z.eqb_spec b 0); [lia | reflexivity]. }
  clear ib Hib Hr.
  destruct (pf_log p mm gf Hprim Hgf a) as (i & Hi & -> & _); [lia |].
  destruct (pf_log p mm gf Hprim Hgf b) as (j & Hj & -> & _); [lia |].
  rewrite result_of_bind, (pf_inverse p mm gf Hprim Hgf j Hj).
  rewrite (pf_divide p mm gf Hprim Hgf i j Hi Hj).
  rewrite (pf_multiply p mm gf Hprim Hgf)
    by (try assumption; apply (pq_mod p mm gf Hprim Hgf)).
  rewrite Z.add_mod_idemp_r by lia. reflexivity.
Qed.

Lemma divide_is_multiply_by_inverse_witness :
  result_of (divide gf16_field 11 13) =
  result_of (ib <- inverse gf16_field 13 ;; multiply gf16_field 11 ib).
Proof.
  apply (divide_is_multiply_by_inverse 19 4 gf16_field 11 13);
    [vm_compute; reflexivity | vm_compute; reflexivity | simpl; lia | simpl; lia].
Defined.

(** X19: in a field built from a primitive polynomial, the inverse of a
    nonzero element is a nonzero element, and inverting twice gives the
    element back. *)
Theorem inverse_involutive (p mm : Z) (gf : GaloisField) (a : Z) :
  is_primitive p mm = true ->
  result_of (__init__ p mm) = Ok gf ->
  0 < a < field_size gf ->
  (exists v, result_of (inverse gf a) = Ok v /\ 0 < v < field_size gf) /\
  result_of (ia <- inverse gf a ;; inverse gf ia) = Ok a.
Proof.
  intros Hprim Hgf Ha. split; [apply (pq_inverse_elem p mm gf Hprim Hgf a Ha) |].
  destruct (pf_field_size p mm gf Hprim Hgf) as (Hfs & Hfs2 & _).
  destruct (pf_log p mm gf Hprim Hgf a) as (i & Hi & -> & _); [lia |].
  rewrite result_of_bind, (pf_inverse p mm gf Hprim Hgf i Hi).
  rewrite (pf_inverse p mm gf Hprim Hgf) by apply (pq_mod p mm gf Hprim Hgf).
  rewrite <- (Z.sub_0_l ((- i) mod (2 ^ mm - 1))), Zminus_mod_idemp_r.
  rewrite Z.sub_0_l, Z.opp_involutive, Z.mod_small by lia. reflexivity.
Qed.

Lemma inverse_involutive_witness :
  (exists v, result_of (inverse gf16_field 11) = Ok v /\ 0 < v < field_size gf16_field) /\
  result_of (ia <- inverse gf16_field 11 ;; inverse gf16_field ia) = Ok 11.
Proof.
  apply (inverse_involutive 19 4 gf16_field 11);
    [vm_compute; reflexivity | vm_compute; reflexivity | simpl; lia].
Defined.

(** X20: in a field built from a primitive polynomial, a nonzero element
    divided by itself is 1, and divided by 1 is itself. *)
Theorem divide_self_and_one (p mm : Z) (gf : GaloisField) (a : Z) :
  is_primitive p mm = true ->
  result_of (__init__ p mm) = Ok gf ->
  0 < a < field_size gf ->
  result_of (divide gf a a) = Ok 1 /\ result_of (divide gf a 1) = Ok a.
Proof.
  intros Hprim Hgf Ha.
  destruct (pf_field_size p mm gf Hprim Hgf) as (Hfs & Hfs2 & _).
  destruct (pf_log p mm gf Hprim Hgf a) as (i & Hi & -> & _); [lia |].
  destruct (pq_one p mm gf Hprim Hgf) as [Hone H0].
  split.
  - rewrite (pf_divide p mm gf Hprim Hgf i i Hi Hi).
    rewrite Z.sub_diag, Z.mod_0_l by lia. reflexivity.
  - rewrite Hone at 1. rewrite (pf_divide p mm gf Hprim Hgf i 0 Hi H0).
    rewrite Z.sub_0_r, Z.mod_small by lia. reflexivity.
Qed.

Lemma divide_self_and_one_witness :
  result_of (divide gf16_field 11 11) = Ok 1 /\ result_of (divide gf16_field 11 1) = Ok 11.
Proof.
  apply (divide_self_and_one 19 4 gf16_field 11);
    [vm_compute; reflexivity | vm_compute; reflexivity | simpl; lia].
Defined.

(** ** Operands outside the field *)

Lemma getitem_outside (t : table) (l : list Z) (i : Z) :
  Z.of_nat (length l) <= i \/ i < - Z.of_nat (length l) ->
  result_of (getitem t l i) = Raise IndexError.
Proof.
  intros Hi. unfold getitem, py_index.
  destruct (Z.leb_spec 0 i), (Z.ltb_spec i (Z.of_nat (length l))); simpl; try lia;
    destruct (Z.leb_spec (- Z.of_nat (length l)) i), (Z.ltb_spec i 0); simpl;
    try lia; reflexivity.
Qed.

Lemma getitem_wrap (t : table) (l : list Z) (i : Z) :
  - Z.of_nat (length l) <= i < 0 ->
  result_of (getitem t l i) = result_of (getitem t l (i + Z.of_nat (length l))).
Proof.
  intros Hi. unfold getitem, py_index.
  destruct (Z.leb_spec 0 i); [lia |].
  destruct (Z.leb_spec (- Z.of_nat (length l)) i); [| lia].
  destruct (Z.ltb_spec i 0); [| lia].
  destruct (Z.leb_spec 0 (i + Z.of_nat (length l))); [| lia].
  destruct (Z.ltb_spec (i + Z.of_nat (length l)) (Z.of_nat (length l))); [| lia].
  cbn [andb]. rewrite !result_of_bind. cbn [emit result_of snd].
  replace (Z.to_nat (i + Z.of_nat (length l)))
    with (Z.to_nat (Z.of_nat (length l) + i)) by lia.
  reflexivity.
Qed.

(** X21: on a constructed object, an operand [a] with
    [a >= field_size] or [a < -field_size] is not checked: [inverse(a)],
    and [multiply(a, b)] and [divide(a, b)] for [b != 0], raise
    [IndexError] from the log-table lookup. *)
Theorem operand_out_of_range (p mm : Z) (gf : GaloisField) (a : Z) :
  result_of (__init__ p mm) = Ok gf ->
  field_size gf <= a \/ a < - field_size gf ->
  result_of (inverse gf a) = Raise IndexError /\
  forall b, b <> 0 ->
    result_of (multiply gf a b) = Raise IndexError /\
    result_of (divide gf a b) = Raise IndexError.
Proof.
  intros Hgf Ha. destruct (init_shape p mm gf Hgf) as (_ & _ & Hfs1 & _ & Hll).
  assert (Hlog : result_of (getitem LogT (log_table gf) a) = Raise IndexError)
    by (apply getitem_outside; lia).
  assert (Ha0 : (a =? 0) = false) by (apply Z.eqb_neq; lia).
  split.
  - unfold inverse. rewrite Ha0, result_of_bind, Hlog. reflexivity.
  - intros b Hb. assert (Hb0 : (b =? 0) = false) by (apply Z.eqb_neq; lia).
    unfold multiply, divide. rewrite Ha0, Hb0. cbn [orb].
    rewrite !result_of_bind, Hlog. split; reflexivity.
Qed.

Lemma operand_out_of_range_witness :
  result_of (inverse gf16_field 16) = Raise IndexError /\
  forall b, b <> 0 ->
    result_of (multiply gf16_field 16 b) = Raise IndexError /\
    result_of (divide gf16_field 16 b) = Raise IndexError.
Proof.
  apply (operand_out_of_range 19 4 gf16_field 16);
    [vm_compute; reflexivity | left; simpl; lia].
Defined.

(** X22: on a constructed object, a negative operand [a] with
    [-field_size < a < 0] is not rejected either: Python's negative
    indexing makes [inverse], [multiply] and [divide] treat it as the
    element [a + field_size]. *)
Theorem negative_operand_wraps (p mm : Z) (gf : GaloisField) (a : Z) :
  result_of (__init__ p mm) = Ok gf ->
  - field_size gf < a < 0 ->
  result_of (inverse gf a) = result_of (inverse gf (a + field_size gf)) /\
  forall b,
    result_of (multiply gf a b) = result_of (multiply gf (a + field_size gf) b) /\
    result_of (divide gf a b) = result_of (divide gf (a + field_size gf) b).
Proof.
  intros Hgf Ha. destruct (init_shape p mm gf Hgf) as (_ & _ & Hfs1 & _ & Hll).
  assert (Hlog : result_of (getitem LogT (log_table gf) a)
                 = result_of (getitem LogT (log_table gf) (a + field_size gf))).
  { rewrite <- Hll. apply getitem_wrap. lia. }
  assert (Ha0 : (a =? 0) = false) by (apply Z.eqb_neq; lia).
  assert (Ha1 : (a + field_size gf =? 0) = false) by (apply Z.eqb_neq; lia).
  split.
  - unfold inverse. rewrite Ha0, Ha1, !result_of_bind, Hlog. reflexivity.
  - intros b. unfold multiply, divide. rewrite Ha0, Ha1. cbn [orb].
    destruct (b =? 0); [split; reflexivity |].
    rewrite !result_of_bind, Hlog. split; reflexivity.
Qed.

Lemma negative_operand_wraps_witness :
  result_of (inverse gf16_field (-5)) = result_of (inverse gf16_field (-5 + field_size gf16_field)) /\
  forall b,
    result_of (multiply gf16_field (-5) b)
    = result_of (multiply gf16_field (-5 + field_size gf16_field) b) /\
    result_of (divide gf16_field (-5) b)
    = result_of (divide gf16_field (-5 + field_size gf16_field) b).
Proof.
  apply (negative_operand_wraps 19 4 gf16_field (-5));
    [vm_compute; reflexivity | simpl; lia].
Defined.

(** ** The demonstration *)

Lemma parse_bits_from_app (s t : string) (acc : Z) :
  parse_bits_from acc (String.append s t) =
  match parse_bits_from acc s with
  | Some v => parse_bits_from v t
  | None => None
  end.
Proof.
  revert acc. induction s as [| c s IH]; intros acc; simpl; [reflexivity |].
  destruct (Ascii.eqb c "0"%char); [apply IH |].
  destruct (Ascii.eqb c "1"%char); [apply IH | reflexivity].
Qed.

Lemma parse_bits_from_zeros (n : nat) (s : string) :
  parse_bits_from 0 (String.append (zeros n) s) = parse_bits_from 0 s.
Proof. induction n as [| n IH]; simpl; [reflexivity | exact IH]. Qed.

Lemma parse_pos_digits (q : positive) :
  parse_bits_from 0 (pos_digits q) = Some (Zpos q).
Proof.
  induction q as [q IH | q IH |]; simpl; [| | reflexivity];
    rewrite parse_bits_from_app, IH; reflexivity.
Qed.

Lemma pos_digits_head (q : positive) :
  exists rest, pos_digits q = String "1"%char rest.
Proof.
  induction q as [q [r IH] | q [r IH] |]; simpl.
  - rewrite IH. eexists. reflexivity.
  - rewrite IH. eexists. reflexivity.
  - eexists. reflexivity.
Qed.

Lemma zfill_no_sign (w : nat) (s : string) (c : ascii) (r : string) :
  s = String c r -> is_sign c = false ->
  zfill w s = if (w <=? String.length s)%nat then s
              else String.append (zeros (w - String.length s)) s.
Proof. intros -> Hc. unfold zfill. rewrite Hc. reflexivity. Qed.

(** X23: the text [bin(x)[2:].zfill(4)] that [example_usage] prints for
    a value [x >= 0] is a binary numeral of [x], and for an element of
    GF(2^4) it has exactly four digits. *)
Theorem show4_round_trip (x : Z) :
  0 <= x ->
  parse_bits (show4 x) = Some x /\ (x < 16 -> String.length (show4 x) = 4%nat).
Proof.
  intros Hx. split.
  - destruct x as [| q | q]; [reflexivity | | lia].
    unfold parse_bits, show4.
    change (slice_from 2 (bin (Z.pos q))) with (pos_digits q).
    destruct (pos_digits_head q) as [r Hr].
    rewrite (zfill_no_sign 4 _ _ r Hr eq_refl).
    destruct (4 <=? String.length (pos_digits q))%nat.
    + apply parse_pos_digits.
    + rewrite parse_bits_from_zeros. apply parse_pos_digits.
  - intros H16.
    assert (Hcases : x = 0 \/ x = 1 \/ x = 2 \/ x = 3 \/ x = 4 \/ x = 5 \/ x = 6 \/
                     x = 7 \/ x = 8 \/ x = 9 \/ x = 10 \/ x = 11 \/ x = 12 \/
                     x = 13 \/ x = 14 \/ x = 15) by lia.
    repeat (destruct Hcases as [-> | Hcases]; [reflexivity |]). subst x. reflexivity.
Qed.

Lemma show4_round_trip_witness :
  parse_bits (show4 6) = Some 6 /\ (6 < 16 -> String.length (show4 6) = 4%nat).
Proof. apply (show4_round_trip 6). lia. Defined.

(** X24: [example_usage()] raises nothing and prints six lines: the
    header, the operands 1011 and 1101, their sum 0110, product 0110,
    quotient 1010, and the inverse 0101 of the first. *)
Theorem example_usage_output :
  result_of example_usage =
  Ok ["Field: GF(2^4)"; "a = 1011, b = 1101"; "a + b = 0110"; "a * b = 0110";
      "a / b = 1010"; "inverse(a) = 0101"]%string.
Proof. vm_compute. reflexivity. Qed.

(** ** Degenerate fields *)

Lemma getitem_nonneg_inv (t : table) (l : list Z) (i v : Z) :
  0 <= i -> result_of (getitem t l i) = Ok v -> l !! Z.to_nat i = Some v.
Proof.
  intros Hi. unfold getitem, py_index.
  destruct (Z.leb_spec 0 i); [| lia].
  destruct (Z.ltb_spec i (Z.of_nat (length l))); cbn [andb].
  - rewrite result_of_bind. cbn [emit result_of snd].
    destruct (l !! Z.to_nat i); [intros [= <-]; reflexivity | discriminate].
  - destruct (Z.leb_spec (- Z.of_nat (length l)) i), (Z.ltb_spec i 0); cbn [andb];
      try lia; discriminate.
Qed.

(** X25: on an object built from any polynomial of degree [m], even one
    that is not primitive, the queries on elements return elements:
    [multiply(a, b)], [divide(a, b)] for [b != 0] and [inverse(a)] for
    [a != 0] raise nothing and stay below [field_size]. *)
Theorem queries_closed_degree_m (p mm : Z) (gf : GaloisField) (a b : Z) :
  result_of (__init__ p mm) = Ok gf ->
  2 ^ mm <= p < 2 ^ (mm + 1) ->
  0 <= a < field_size gf -> 0 <= b < field_size gf ->
  (exists v, result_of (multiply gf a b) = Ok v /\ 0 <= v < field_size gf) /\
  (b <> 0 -> exists v, result_of (divide gf a b) = Ok v /\ 0 <= v < field_size gf) /\
  (a <> 0 -> exists v, result_of (inverse gf a) = Ok v /\ 0 <= v < field_size gf).
Proof.
  intros Hgf Hp Ha Hb.
  destruct (init_shape p mm gf Hgf) as (Hmm & Hfs & Hfs1 & _ & _).
  destruct (init_degree_m p mm Hmm Hp) as (gf' & Hgf' & Hexp).
  rewrite Hgf in Hgf'. injection Hgf' as <-.
  assert (Hlook : forall k, 0 <= k < field_size gf - 1 ->
            exists v, exp_table gf !! Z.to_nat k = Some v /\ 0 <= v < field_size gf).
  { intros k Hk. destruct (Hexp k Hk) as [Hget Hr].
    eexists. split; [apply (getitem_nonneg_inv ExpT); [lia | exact Hget] | exact Hr]. }
  assert (Hmod : forall k, 1 < field_size gf ->
            0 <= k mod (field_size gf - 1) < field_size gf - 1)
    by (intros k H1; apply Z.mod_pos_bound; lia).
  split; [| split].
  - destruct (Z.eq_dec a 0) as [Ha0 | Ha0]; [| destruct (Z.eq_dec b 0) as [Hb0 | Hb0]].
    + exists 0. rewrite (multiply_zero gf a b (or_introl Ha0)). split; [reflexivity | lia].
    + exists 0. rewrite (multiply_zero gf a b (or_intror Hb0)). split; [reflexivity | lia].
    + destruct (af_log p mm gf Hgf a Ha) as [la Hla].
      destruct (af_log p mm gf Hgf b Hb) as [lb Hlb].
      destruct (Hlook _ (Hmod (la + lb) ltac:(lia))) as (v & Hv & Hr).
      exists v. split; [| exact Hr].
      rewrite (multiply_eval gf a b la lb v); try assumption; try lia. reflexivity.
  - intros Hb0. destruct (Z.eq_dec a 0) as [-> | Ha0].
    + exists 0. unfold divide. destruct (Z.eqb_spec b 0); [lia |].
      split; [reflexivity | lia].
    + destruct (af_log p mm gf Hgf a Ha) as [la Hla].
      destruct (af_log p mm gf Hgf b Hb) as [lb Hlb].
      destruct (Hlook _ (Hmod (la - lb) ltac:(lia))) as (v & Hv & Hr).
      exists v. split; [| exact Hr].
      rewrite (divide_eval gf a b la lb v); try assumption; try lia. reflexivity.
  - intros Ha0. destruct (af_log p mm gf Hgf a Ha) as [la Hla].
    destruct (Hlook _ (Hmod (- la) ltac:(lia))) as (v & Hv & Hr).
    exists v. split; [| exact Hr].
    rewrite (inverse_eval gf a la v); try assumption; try lia. reflexivity.
Qed.

Lemma queries_closed_degree_m_witness :
  (exists v, result_of (multiply gf16_field 11 13) = Ok v /\ 0 <= v < field_size gf16_field) /\
  (13 <> 0 -> exists v, result_of (divide gf16_field 11 13) = Ok v /\
                        0 <= v < field_size gf16_field) /\
  (11 <> 0 -> exists v, result_of (inverse gf16_field 11) = Ok v /\
                        0 <= v < field_size gf16_field).
Proof.
  apply (queries_closed_degree_m 19 4 gf16_field 11 13);
    [vm_compute; reflexivity | simpl; lia | simpl; lia | simpl; lia].
Defined.

(** X26: the constructor accepts the degree 0 with any polynomial and
    returns tables that no pass has written; on that object [inverse]
    and [multiply] return no value for nonzero operands: every lookup
    ends in [IndexError] or in the [ZeroDivisionError] of the modulo by
    [field_size - 1 = 0]. *)
Theorem degree_zero_field (p : Z) :
  exists gf, result_of (__init__ p 0) = Ok gf /\
    field_size gf = 1 /\ exp_table gf = [0; 0] /\ log_table gf = [0] /\
    forall a, a <> 0 ->
      (exists e, result_of (inverse gf a) = Raise e /\ lookup_error e) /\
      forall b, b <> 0 ->
        exists e, result_of (multiply gf a b) = Raise e /\ lookup_error e.
Proof.
  exists {| m := 0; primitive_poly := p; field_size := 1; mask := 0;
            exp_table := [0; 0]; log_table := [0] |}.
  split; [reflexivity |]. split; [reflexivity |].
  split; [reflexivity |]. split; [reflexivity |].
  intros a Ha.
  assert (Hget : forall c, c <> 0 ->
            result_of (getitem LogT [0] c) = Ok 0 \/
            result_of (getitem LogT [0] c) = Raise IndexError).
  { intros c Hc. destruct (Z.eq_dec c (-1)) as [-> | Hc1]; [left; reflexivity |].
    right. apply getitem_outside. simpl. lia. }
  assert (Ha0 : (a =? 0) = false) by (apply Z.eqb_neq; exact Ha).
  split.
  - unfold inverse. rewrite Ha0, result_of_bind. cbn [log_table].
    destruct (Hget a Ha) as [-> | ->].
    + exists ZeroDivisionError. split; [reflexivity | right; reflexivity].
    + exists IndexError. split; [reflexivity | left; reflexivity].
  - intros b Hb. assert (Hb0 : (b =? 0) = false) by (apply Z.eqb_neq; exact Hb).
    unfold multiply. rewrite Ha0, Hb0. cbn [orb log_table].
    rewrite result_of_bind. destruct (Hget a Ha) as [-> | ->].
    + rewrite result_of_bind. destruct (Hget b Hb) as [-> | ->].
      * exists ZeroDivisionError. split; [reflexivity | right; reflexivity].
      * exists IndexError. split; [reflexivity | left; reflexivity].
    + exists IndexError. split; [reflexivity | left; reflexivity].
Qed.
